(** * CPU scheduling lab: the simulation core of [josue/app.py]

    A shallow embedding of the scheduling engine (first-come-first-served,
    shortest-job-first, priority, round robin) and of the metrics calculator,
    followed by the properties the specification states about them.

    Modelling conventions.
    - Python [int] is unbounded, so every time, burst and priority is a [Z].
    - A [pid] is a [string]; Rocq strings are byte strings, compared
      lexicographically by [String.leb], which on UTF-8 text is Python's
      code-point order.
    - A Python [dict] keyed by pid is a [gmap string _]; a failing lookup
      [d[k]] raises [KeyError], a failing [l[i]] or [pop] raises [IndexError].
    - A [while] loop is iterated by a fuel counter that counts executions of
      the loop body; [OutOfFuel] is not a Python outcome, it only says that
      the given fuel was too small.  [returns] states that every large enough
      fuel yields the same value.
    - The three averages are Python floats obtained by one true division
      [sum / n]; they are modelled by the exact quotient in [Q]. *)

From Stdlib Require Import ZArith QArith Lia String.
From stdpp Require Import base list sorting gmap strings pretty.

Local Open Scope Z_scope.

(** ** Domain model *)

Module Process.
Record t := mk { pid : string; arrival : Z; burst : Z; priority : Z }.
End Process.

Module Slice.
(** [end] is a keyword of Rocq: the field is [end_]. *)
Record t := mk { pid : string; start : Z; end_ : Z }.
End Slice.

Abbreviation Process := Process.t.
Abbreviation Slice := Slice.t.

Record Result := mkResult {
  algorithm : string;
  timeline : list Slice;
  waiting_times : gmap string Z;
  response_times : gmap string Z;
  turnaround_times : gmap string Z;
  avg_waiting : Q;
  avg_response : Q;
  avg_turnaround : Q
}.

(** ** Outcomes of a Python computation *)

Inductive exn := KeyError | IndexError.

Inductive outcome (A : Type) : Type :=
  | Ret (a : A)
  | Raise (e : exn)
  | OutOfFuel.
Arguments Ret {A} a.
Arguments Raise {A} e.
Arguments OutOfFuel {A}.

#[global] Instance outcome_ret : MRet outcome := @Ret.
#[global] Instance outcome_bind : MBind outcome := fun A B f m =>
  match m with
  | Ret a => f a
  | Raise e => Raise e
  | OutOfFuel => OutOfFuel
  end.

(** [d[k]] on a dictionary. *)
Definition getitem {V} (d : gmap string V) (k : string) : outcome V :=
  match d !! k with
  | Some v => Ret v
  | None => Raise KeyError
  end.

(** [l[i]] on a list, for a non-negative index. *)
Definition index {A} (l : list A) (i : nat) : outcome A :=
  match l !! i with
  | Some x => Ret x
  | None => Raise IndexError
  end.

(** A [for] loop whose body may raise. *)
Fixpoint for_each {A S} (body : S -> A -> outcome S) (s : S) (l : list A)
  : outcome S :=
  match l with
  | [] => Ret s
  | x :: l' => s' ← body s x; for_each body s' l'
  end.

(** A [while] loop: [cond] is tested first, then one unit of fuel pays for one
    execution of [body]. *)
Fixpoint while {S} (cond : S -> bool) (body : S -> outcome S) (fuel : nat)
  (s : S) {struct fuel} : outcome S :=
  if cond s then
    match fuel with
    | O => OutOfFuel
    | S fuel' => s' ← body s; while cond body fuel' s'
    end
  else Ret s.

(** [run] returns [a]: every large enough fuel gives [Ret a]. *)
Definition returns {A} (run : nat -> outcome A) (a : A) : Prop :=
  exists n : nat, forall fuel : nat, (n <= fuel)%nat -> run fuel = Ret a.

(** ** Sorting

    [sorted(l, key=k)] and [l.sort(key=k)] are stable; a stable sort is
    determined by its input, here computed by insertion from the right, each
    element being placed before the first one that is not smaller. *)

Fixpoint insert_by {A} (le : A -> A -> bool) (x : A) (l : list A) : list A :=
  match l with
  | [] => [x]
  | y :: l' => if le x y then x :: l else y :: insert_by le x l'
  end.

Definition sorted_by {A} (le : A -> A -> bool) (l : list A) : list A :=
  foldr (insert_by le) [] l.

(** [key=lambda p: p.arrival] *)
Definition by_arrival (p q : Process) : bool :=
  Process.arrival p <=? Process.arrival q.

(** Order on the tuples [(a, p.arrival, p.pid)]. *)
Definition tuple_le (a1 : Z) (p1 : Process) (a2 : Z) (p2 : Process) : bool :=
  if a1 <? a2 then true
  else if a2 <? a1 then false
  else if Process.arrival p1 <? Process.arrival p2 then true
  else if Process.arrival p2 <? Process.arrival p1 then false
  else String.leb (Process.pid p1) (Process.pid p2).

(** [key=lambda p: (p.burst, p.arrival, p.pid)] *)
Definition by_burst (p q : Process) : bool :=
  tuple_le (Process.burst p) p (Process.burst q) q.

(** [key=lambda p: (p.priority, p.arrival, p.pid)] *)
Definition by_priority (p q : Process) : bool :=
  tuple_le (Process.priority p) p (Process.priority q) q.

(** ** Metrics calculator *)

(** [{p.pid: v for p in procs}] *)
Definition dict_of_pids {V} (v : V) (procs : list Process) : gmap string V :=
  foldl (fun d p => <[Process.pid p := v]> d) ∅ procs.

(** Body of the first loop over the timeline. *)
Definition record_slice (st : gmap string (option Z) * gmap string Z)
  (sl : Slice) : outcome (gmap string (option Z) * gmap string Z) :=
  let '(first_start, finish_time) := st in
  fs ← getitem first_start (Slice.pid sl);
  let first_start :=
    match fs with
    | None => <[Slice.pid sl := Some (Slice.start sl)]> first_start
    | Some _ => first_start
    end in
  Ret (first_start, <[Slice.pid sl := Slice.end_ sl]> finish_time).

(** Body of the second loop: [run_time[sl.pid] += sl.end - sl.start]. *)
Definition add_run_time (run_time : gmap string Z) (sl : Slice)
  : outcome (gmap string Z) :=
  r ← getitem run_time (Slice.pid sl);
  Ret (<[Slice.pid sl := r + (Slice.end_ sl - Slice.start sl)]> run_time).

(** The three result dictionaries, in the order
    (response, turnaround, waiting). *)
Definition tables : Type := gmap string Z * gmap string Z * gmap string Z.

(** Body of the loop over the processes. *)
Definition record_process (first_start : gmap string (option Z))
  (finish_time : gmap string Z) (acc : tables) (p : Process) : outcome tables :=
  let '(response_times, turnaround_times, waiting_times) := acc in
  fs ← getitem first_start (Process.pid p);
  let rt :=
    match fs with
    | Some s => s - Process.arrival p
    | None => 0
    end in
  ft ← getitem finish_time (Process.pid p);
  let tt := ft - Process.arrival p in
  let wt := tt - Process.burst p in
  Ret (<[Process.pid p := rt]> response_times,
       <[Process.pid p := tt]> turnaround_times,
       <[Process.pid p := wt]> waiting_times).

(** [sum(d.values())] *)
Definition sum_values (d : gmap string Z) : Z :=
  map_fold (fun _ v acc => acc + v) 0 d.

(** [s / n] for two integers. *)
Definition true_div (s n : Z) : Q := (inject_Z s / inject_Z n)%Q.

(** The dictionaries [first_start] and [finish_time] after the first loop. *)
Definition scan_timeline (procs : list Process) (timeline : list Slice)
  : outcome (gmap string (option Z) * gmap string Z) :=
  for_each record_slice (dict_of_pids None procs, dict_of_pids 0 procs)
    timeline.

(** [by_pid], built between the two loops, is never read and its construction
    cannot fail; it is left out. *)
Definition compute_metrics (algorithm : string) (procs : list Process)
  (timeline : list Slice) : outcome Result :=
  '(first_start, finish_time) ← scan_timeline procs timeline;
  _ ← for_each add_run_time (dict_of_pids 0 procs) timeline;
  '(response_times, turnaround_times, waiting_times) ←
    for_each (record_process first_start finish_time) (∅, ∅, ∅) procs;
  let n := Z.max 1 (Z.of_nat (length procs)) in
  Ret {| algorithm := algorithm;
         timeline := timeline;
         waiting_times := waiting_times;
         response_times := response_times;
         turnaround_times := turnaround_times;
         avg_waiting := true_div (sum_values waiting_times) n;
         avg_response := true_div (sum_values response_times) n;
         avg_turnaround := true_div (sum_values turnaround_times) n |}.

(** ** Scheduling algorithms *)

(** Body of the [for] loop of [fcfs]; the state is [(t, timeline)]. *)
Definition fcfs_step (st : Z * list Slice) (p : Process) : Z * list Slice :=
  let '(t, timeline) := st in
  let t := if t <? Process.arrival p then Process.arrival p else t in
  (t + Process.burst p,
   timeline ++ [Slice.mk (Process.pid p) t (t + Process.burst p)]).

Definition fcfs_timeline (processes : list Process) : list Slice :=
  snd (foldl fcfs_step (0, []) (sorted_by by_arrival processes)).

Definition fcfs (processes : list Process) : outcome Result :=
  compute_metrics "FCFS" processes (fcfs_timeline processes).

(** The admission loop shared by the three [while] algorithms:

      while i < len(procs) and procs[i].arrival <= t:
          queue.append(item(procs[i])); i += 1

    [pending] is [procs[i:]]. *)
Fixpoint enqueue_arrived {A} (item : Process -> A) (pending : list Process)
  (t : Z) (i : nat) (queue : list A) : nat * list A :=
  match pending with
  | [] => (i, queue)
  | p :: pending' =>
      if Process.arrival p <=? t
      then enqueue_arrived item pending' t (S i) (queue ++ [item p])
      else (i, queue)
  end.

(** State of the loop of the two non-preemptive algorithms. *)
Record np_state := mk_np {
  np_t : Z;
  np_ready : list Process;
  np_i : nat;
  np_timeline : list Slice
}.

(** [i < len(procs) or ready] *)
Definition np_cond (procs : list Process) (st : np_state) : bool :=
  bool_decide (np_i st < length procs)%nat
  || negb (bool_decide (np_ready st = [])).

(** One execution of the loop body; [le] is the order of the sort key. *)
Definition np_body (le : Process -> Process -> bool) (procs : list Process)
  (st : np_state) : outcome np_state :=
  let t := np_t st in
  let '(i, ready) :=
    enqueue_arrived id (drop (np_i st) procs) t (np_i st) (np_ready st) in
  match ready with
  | [] =>
      p ← index procs i;
      Ret (mk_np (Process.arrival p) ready i (np_timeline st))
  | _ :: _ =>
      match sorted_by le ready with
      | [] => Raise IndexError
      | p :: ready' =>
          Ret (mk_np (t + Process.burst p) ready' i
                 (np_timeline st
                  ++ [Slice.mk (Process.pid p) t (t + Process.burst p)]))
      end
  end.

Definition np_timeline_of (le : Process -> Process -> bool)
  (processes : list Process) (fuel : nat) : outcome (list Slice) :=
  let procs := sorted_by by_arrival processes in
  st ← while (np_cond procs) (np_body le procs) fuel (mk_np 0 [] 0 []);
  Ret (np_timeline st).

Definition sjf_non_preemptive (fuel : nat) (processes : list Process)
  : outcome Result :=
  timeline ← np_timeline_of by_burst processes fuel;
  compute_metrics "SJF (non-preemptive)" processes timeline.

Definition priority_non_preemptive (fuel : nat) (processes : list Process)
  : outcome Result :=
  timeline ← np_timeline_of by_priority processes fuel;
  compute_metrics "Priority (non-preemptive)" processes timeline.

(** State of the loop of [round_robin]. *)
Record rr_state := mk_rr {
  rr_t : Z;
  rr_queue : list (Process * Z);
  rr_i : nat;
  rr_timeline : list Slice
}.

(** The queue entry [(procs[i], procs[i].burst)]. *)
Definition fresh (p : Process) : Process * Z := (p, Process.burst p).

(** [i < len(procs) or queue] *)
Definition rr_cond (procs : list Process) (st : rr_state) : bool :=
  bool_decide (rr_i st < length procs)%nat
  || negb (bool_decide (rr_queue st = [])).

Definition rr_body (quantum : Z) (procs : list Process) (st : rr_state)
  : outcome rr_state :=
  let t := rr_t st in
  let '(i, queue) :=
    enqueue_arrived fresh (drop (rr_i st) procs) t (rr_i st) (rr_queue st) in
  match queue with
  | [] =>
      p ← index procs i;
      Ret (mk_rr (Process.arrival p) queue i (rr_timeline st))
  | (p, rem) :: queue =>
      let use := Z.min quantum rem in
      let start := t in
      let end_ := t + use in
      let timeline := rr_timeline st ++ [Slice.mk (Process.pid p) start end_] in
      let t := end_ in
      let rem := rem - use in
      (* arrivals that happened during this slice *)
      let '(i, queue) := enqueue_arrived fresh (drop i procs) t i queue in
      let queue := if 0 <? rem then queue ++ [(p, rem)] else queue in
      Ret (mk_rr t queue i timeline)
  end.

Definition rr_timeline_of (quantum : Z) (processes : list Process)
  (fuel : nat) : outcome (list Slice) :=
  let procs := sorted_by by_arrival processes in
  st ← while (rr_cond procs) (rr_body quantum procs) fuel (mk_rr 0 [] 0 []);
  Ret (rr_timeline st).

Definition round_robin (fuel : nat) (processes : list Process) (quantum : Z)
  : outcome Result :=
  timeline ← rr_timeline_of quantum processes fuel;
  compute_metrics ("Round Robin (q=" +:+ pretty quantum +:+ ")") processes
    timeline.

(** ** Dispatch: [run_one] of [simulate_api], a closure over [procs] and
    [quantum]. *)
Definition run_one (fuel : nat) (procs : list Process) (quantum : Z)
  (name : string) : outcome Result :=
  if String.eqb name "FCFS" then fcfs procs
  else if String.eqb name "SJF" then sjf_non_preemptive fuel procs
  else if String.eqb name "PRIORITY" then priority_non_preemptive fuel procs
  else if String.eqb name "RR" then round_robin fuel procs (Z.max 1 quantum)
  else fcfs procs.

(** The seed scenario of the specification. *)
Definition seed : list Process :=
  [ Process.mk "P1" 0 7 2; Process.mk "P2" 2 4 1;
    Process.mk "P3" 4 1 3; Process.mk "P4" 5 4 2 ].


(** ** Vocabulary of the properties *)

Definition pids (procs : list Process) : list string := Process.pid <$> procs.

Definition Zsum (l : list Z) : Z := foldr Z.add 0 l.

(** [end - start] *)
Definition duration (sl : Slice) : Z := Slice.end_ sl - Slice.start sl.

(** The slices bearing the pid [x], in timeline order. *)
Definition slices_of (x : string) (tl : list Slice) : list Slice :=
  filter (fun sl => Slice.pid sl = x) tl.

(** Sum of [end - start] over the slices bearing [x]. *)
Definition cpu_time (x : string) (tl : list Slice) : Z :=
  Zsum (duration <$> slices_of x tl).

(** The processes bearing the pid [x], and the sum of their bursts. *)
Definition procs_of (x : string) (procs : list Process) : list Process :=
  filter (fun p => Process.pid p = x) procs.

Definition burst_total (x : string) (procs : list Process) : Z :=
  Zsum (Process.burst <$> procs_of x procs).

(** Start of the earliest and end of the latest slice bearing [x]. *)
Definition first_start_of (x : string) (tl : list Slice) : option Z :=
  Slice.start <$> head (slices_of x tl).

Definition finish_of (x : string) (tl : list Slice) : Z :=
  default 0 (Slice.end_ <$> last (slices_of x tl)).

(** A timeline that starts no earlier than [t0], whose slices are non-empty
    and each start no earlier than the end of the one before. *)
Fixpoint ordered_from (t0 : Z) (tl : list Slice) : Prop :=
  match tl with
  | [] => True
  | sl :: tl' =>
      t0 <= Slice.start sl /\ Slice.start sl < Slice.end_ sl
      /\ ordered_from (Slice.end_ sl) tl'
  end.

(** End of the last slice, [t0] for the empty timeline. *)
Definition horizon (t0 : Z) (tl : list Slice) : Z :=
  default t0 (Slice.end_ <$> last tl).

(** Every slice belongs to an input process and starts no earlier than that
    process arrives. *)
Definition after_arrival (procs : list Process) (tl : list Slice) : Prop :=
  Forall (fun sl => exists p, p ∈ procs /\ Process.pid p = Slice.pid sl
                              /\ Process.arrival p <= Slice.start sl) tl.

(** What the four algorithms guarantee about the timeline they build. *)
Record schedule (procs : list Process) (tl : list Slice) : Prop := {
  sched_conserves : forall x, cpu_time x tl = burst_total x procs;
  sched_ordered : ordered_from 0 tl;
  sched_arrival : after_arrival procs tl
}.

(** The last process bearing the pid [x]: the one whose row a dictionary
    keyed by pid keeps. *)
Definition owner (x : string) (procs : list Process) : option Process :=
  last (procs_of x procs).

(** Work still owed to the pid [x] by the entries [(process, remaining)]. *)
Definition rem_total (x : string) (rest : list (Process * Z)) : Z :=
  Zsum (snd <$> filter (fun e => Process.pid e.1 = x) rest).

(** A timeline under construction at clock [t]; [rest] lists the processes
    not yet finished with what remains of their bursts. *)
Record partial (procs : list Process) (rest : list (Process * Z)) (t : Z)
  (tl : list Slice) : Prop := {
  part_account : forall x, cpu_time x tl + rem_total x rest = burst_total x procs;
  part_ordered : ordered_from 0 tl;
  part_horizon : horizon 0 tl <= t;
  part_arrival : after_arrival procs tl;
  part_rest : Forall (fun e => e.1 ∈ procs /\ 0 < e.2) rest
}.

(** Every burst is at least 1. *)
Definition bursts_positive (procs : list Process) : Prop :=
  Forall (fun p => 1 <= Process.burst p) procs.

(** Arrival order. *)
Definition arrival_le (p q : Process) : Prop :=
  Process.arrival p <= Process.arrival q.

(** Invariant and measure of the loop of the non-preemptive algorithms, over
    the arrival-sorted list [procs]. *)
Definition np_inv (procs : list Process) (st : np_state) : Prop :=
  partial procs (fresh <$> (np_ready st ++ drop (np_i st) procs)) (np_t st)
    (np_timeline st)
  /\ Forall (fun p => Process.arrival p <= np_t st) (np_ready st)
  /\ (Slice.pid <$> np_timeline st) ++ pids (np_ready st ++ drop (np_i st) procs)
     ≡ₚ pids procs
  /\ (np_i st <= length procs)%nat.

(** 1 when the next execution of the body only advances the clock. *)
Definition idle {A} (queue : list A) : nat :=
  match queue with [] => 1 | _ :: _ => 0 end.

Definition np_measure (procs : list Process) (st : np_state) : nat :=
  2 * (length procs - np_i st + length (np_ready st))
  + idle (enqueue_arrived id (drop (np_i st) procs) (np_t st) (np_i st)
            (np_ready st)).2.

(** Invariant and measure of the loop of [round_robin].  The first three
    parts hold for every input; the rest needs every burst to be positive. *)
Definition rr_inv (procs : list Process) (st : rr_state) : Prop :=
  Forall (fun e => e.1 ∈ procs) (rr_queue st)
  /\ Forall (fun sl => Slice.pid sl ∈ pids procs) (rr_timeline st)
  /\ (rr_i st <= length procs)%nat
  /\ (bursts_positive procs ->
      partial procs (rr_queue st ++ (fresh <$> drop (rr_i st) procs)) (rr_t st)
        (rr_timeline st)
      /\ Forall (fun e => Process.arrival e.1 <= rr_t st) (rr_queue st)).

(** An upper bound on the slices still to come when the quantum is at least
    1. *)
Definition work (rest : list (Process * Z)) : nat :=
  sum_list_with (fun e => Z.to_nat (Z.max 1 e.2)) rest.

Definition rr_measure (procs : list Process) (st : rr_state) : nat :=
  2 * (work (rr_queue st) + work (fresh <$> drop (rr_i st) procs))
  + idle (enqueue_arrived fresh (drop (rr_i st) procs) (rr_t st) (rr_i st)
            (rr_queue st)).2.

(** The row of the process [p] in the three result dictionaries, given the
    timeline. *)
Definition response_of (tl : list Slice) (p : Process) : Z :=
  match first_start_of (Process.pid p) tl with
  | Some s => s - Process.arrival p
  | None => 0
  end.

Definition turnaround_of (tl : list Slice) (p : Process) : Z :=
  finish_of (Process.pid p) tl - Process.arrival p.

Definition waiting_of (tl : list Slice) (p : Process) : Z :=
  turnaround_of tl p - Process.burst p.

(** [r] is the result that the metrics calculator derives from [procs] and
    [tl]: each dictionary holds, at every pid, the row of its owner. *)
Record metrics_of (name : string) (procs : list Process) (tl : list Slice)
  (r : Result) : Prop := {
  met_algorithm : algorithm r = name;
  met_timeline : timeline r = tl;
  met_response : forall x, response_times r !! x = response_of tl <$> owner x procs;
  met_turnaround :
    forall x, turnaround_times r !! x = turnaround_of tl <$> owner x procs;
  met_waiting : forall x, waiting_times r !! x = waiting_of tl <$> owner x procs;
  met_averages :
    let n := Z.max 1 (Z.of_nat (length procs)) in
    avg_waiting r = true_div (sum_values (waiting_times r)) n
    /\ avg_response r = true_div (sum_values (response_times r)) n
    /\ avg_turnaround r = true_div (sum_values (turnaround_times r)) n
}.

(** ** The properties of a timeline and of a result *)

(** Conservation: the slices bearing the pid of a process add up to its
    burst. *)
Definition conserved (procs : list Process) (tl : list Slice) : Prop :=
  forall p, p ∈ procs -> cpu_time (Process.pid p) tl = Process.burst p.

(** Exactly one slice bears the pid of each process. *)
Definition one_slice_each (procs : list Process) (tl : list Slice) : Prop :=
  forall p, p ∈ procs -> length (slices_of (Process.pid p) tl) = 1%nat.

(** Ordering: ascending starts, consecutive slices do not overlap, no slice
    is empty; with it, no two slices overlap. *)
Definition well_ordered (tl : list Slice) : Prop :=
  (forall (i : nat) s s', tl !! i = Some s -> tl !! S i = Some s' ->
     Slice.start s <= Slice.start s' /\ Slice.end_ s <= Slice.start s')
  /\ (forall s, s ∈ tl -> Slice.end_ s > Slice.start s)
  /\ (forall (i j : nat) s s', (i < j)%nat -> tl !! i = Some s -> tl !! j = Some s' ->
       Slice.end_ s <= Slice.start s').


(** Each of the four algorithms returns a result with the property [P]. *)
Definition each_algorithm (quantum : Z) (processes : list Process)
  (P : Result -> Prop) : Prop :=
  (exists r, fcfs processes = Ret r /\ P r)
  /\ (exists r, returns (fun fuel => sjf_non_preemptive fuel processes) r /\ P r)
  /\ (exists r, returns (fun fuel => priority_non_preemptive fuel processes) r
                 /\ P r)
  /\ (exists r, returns (fun fuel => round_robin fuel processes quantum) r /\ P r).

(** The result on no process at all: nothing in the timeline, nothing in the
    tables, averages 0. *)
Definition empty_result (name : string) : Result :=
  {| algorithm := name; timeline := [];
     waiting_times := ∅; response_times := ∅; turnaround_times := ∅;
     avg_waiting := 0; avg_response := 0; avg_turnaround := 0 |}.

(** A process list on which [round_robin] with quantum 0 never returns. *)
Definition lone : list Process := [Process.mk "A" 0 1 0].

(** The key set that the result dictionaries must have. *)
Definition pid_set (procs : list Process) : gset string :=
  list_to_set (pids procs).

(** A timeline in which P2, P3 and P4 of the seed scenario never run, and one
    with a slice that no seed process bears. *)
Definition only_P1 : list Slice := [Slice.mk "P1" 0 7].
Definition stray : list Slice := [Slice.mk "P1" 0 7; Slice.mk "P9" 7 8].

(** Two processes of which the second arrives exactly when the first slice of
    the first one ends under quantum 2. *)
Definition pair : list Process := [Process.mk "A" 0 4 0; Process.mk "B" 2 1 0].

(** The round-robin loop seen from FCFS when no burst exceeds the quantum:
    the processes admitted so far are [served ++ waiting], the queue holds
    [waiting] untouched, and the timeline and clock are those of the FCFS
    loop after [served], up to an idle wait for the next arrival. *)
Definition rr_fcfs_inv (procs : list Process) (st : rr_state) : Prop :=
  exists served waiting : list Process,
    take (rr_i st) procs = served ++ waiting
    /\ (rr_i st <= length procs)%nat
    /\ rr_queue st = fresh <$> waiting
    /\ (foldl fcfs_step (0, []) served).2 = rr_timeline st
    /\ (foldl fcfs_step (0, []) served).1 <= rr_t st
    /\ ((foldl fcfs_step (0, []) served).1 < rr_t st ->
        waiting = []
        /\ Forall (fun p => rr_t st <= Process.arrival p) (drop (rr_i st) procs))
    /\ Forall (fun p => Process.arrival p <= rr_t st) waiting.

(** ** Vocabulary of the further properties *)

(** The entries not yet finished in a state of the round-robin loop: the
    queue, then the processes still to be admitted. *)
Definition rr_rest (procs : list Process) (st : rr_state)
  : list (Process * Z) :=
  rr_queue st ++ (fresh <$> drop (rr_i st) procs).

(** The durations of the slices bearing the pid [x], in timeline order. *)
Definition durations_of (x : string) (tl : list Slice) : list Z :=
  duration <$> slices_of x tl.

(** [n] full quanta. *)
Definition full_quanta (quantum : Z) (n : nat) : list Z := replicate n quantum.

(** Invariant of the round-robin loop about quanta: an unfinished process
    has only received full quanta so far; a finished one has received full
    quanta and then a last slice of at most one quantum. *)
Definition rr_quanta_inv (quantum : Z) (procs : list Process) (st : rr_state)
  : Prop :=
  (rr_i st <= length procs)%nat
  /\ NoDup ((fun e : Process * Z => Process.pid e.1) <$> rr_rest procs st)
  /\ Forall (fun e : Process * Z =>
               e.1 ∈ procs /\ 0 < e.2
               /\ exists n : nat,
                    durations_of (Process.pid e.1) (rr_timeline st)
                    = full_quanta quantum n
                    /\ Z.of_nat n * quantum + e.2 = Process.burst e.1)
       (rr_rest procs st)
  /\ (forall p, p ∈ procs -> p ∉ (fst <$> rr_rest procs st) ->
        exists (n : nat) (last : Z),
          durations_of (Process.pid p) (rr_timeline st)
          = full_quanta quantum n ++ [last]
          /\ 0 < last <= quantum
          /\ Z.of_nat n * quantum + last = Process.burst p).

(** Some unfinished entry still has work to do. *)
Definition rr_busy (procs : list Process) (st : rr_state) : Prop :=
  (rr_i st <= length procs)%nat
  /\ Exists (fun e : Process * Z => 0 < e.2) (rr_rest procs st).

(** The processes not yet run in a state of the non-preemptive loop. *)
Definition np_rest (procs : list Process) (st : np_state) : list Process :=
  np_ready st ++ drop (np_i st) procs.

(** The slice [sl] is the single run of the process [p]: it bears its pid,
    lasts its burst and does not start before it arrives. *)
Definition runs (p : Process) (sl : Slice) : Prop :=
  Slice.pid sl = Process.pid p
  /\ Slice.end_ sl = Slice.start sl + Process.burst p
  /\ Process.arrival p <= Slice.start sl.

(** The selection policy of a non-preemptive schedule that serves [order] by
    the slices [tl], processes [later] being served after them: when a
    process [p] starts, every process [q] served after it that has already
    arrived is no better a choice: [R p q]. *)
Definition selects_least (R : Process -> Process -> Prop)
  (order : list Process) (tl : list Slice) (later : list Process) : Prop :=
  forall (i : nat) p sl q,
    order !! i = Some p -> tl !! i = Some sl ->
    q ∈ drop (S i) order ++ later ->
    Process.arrival q <= Slice.start sl -> R p q.

Definition np_policy_inv (R : Process -> Process -> Prop)
  (procs : list Process) (st : np_state) : Prop :=
  (np_i st <= length procs)%nat
  /\ Forall (fun p => Process.arrival p <= np_t st) (np_ready st)
  /\ exists order,
       order ++ np_rest procs st ≡ₚ procs
       /\ Forall2 runs order (np_timeline st)
       /\ selects_least R order (np_timeline st) (np_rest procs st).

(** The timeline [tl] serves the processes once each, in some order, and
    every choice it makes is a least choice for [R] among the processes that
    have arrived and not yet run. *)
Definition least_first (R : Process -> Process -> Prop)
  (processes : list Process) (tl : list Slice) : Prop :=
  exists order,
    order ≡ₚ processes
    /\ Forall2 runs order tl
    /\ forall (i j : nat) p q sl,
         (i < j)%nat -> order !! i = Some p -> order !! j = Some q ->
         tl !! i = Some sl -> Process.arrival q <= Slice.start sl ->
         R p q.

(** [(f p, p.arrival, p.pid) <= (f q, q.arrival, q.pid)], the order of
    Python's tuples: the first components that differ decide. *)
Definition key_le (f : Process -> Z) (p q : Process) : Prop :=
  f p < f q
  \/ (f p = f q
      /\ (Process.arrival p < Process.arrival q
          \/ (Process.arrival p = Process.arrival q
              /\ String.leb (Process.pid p) (Process.pid q) = true))).

(** The process of the slice [sl'] had not arrived before the slice [sl]
    started. *)
Definition not_before (procs : list Process) (sl sl' : Slice) : Prop :=
  exists p, p ∈ procs /\ Process.pid p = Slice.pid sl'
            /\ Slice.start sl <= Process.arrival p.

(** The CPU never idles while a process is waiting: every slice starts when
    the one before ends (at time 0 for the first), or else after an idle gap
    that lasts until the first arrival among the processes of all the slices
    still to come. *)
Definition work_conserving (procs : list Process) (tl : list Slice) : Prop :=
  forall (i : nat) sl, tl !! i = Some sl ->
    Slice.start sl = horizon 0 (take i tl)
    \/ (horizon 0 (take i tl) < Slice.start sl
        /\ Forall (not_before procs sl) (drop i tl)).

(** The same for a timeline under construction at clock [t], the processes
    [rest] being unfinished. *)
Definition conserving (procs : list Process) (t : Z) (tl : list Slice)
  (rest : list Process) : Prop :=
  (horizon 0 tl = t
   \/ (horizon 0 tl < t /\ Forall (fun p => t <= Process.arrival p) rest))
  /\ Forall (fun p => p ∈ procs) rest
  /\ forall (i : nat) sl, tl !! i = Some sl ->
       Slice.start sl = horizon 0 (take i tl)
       \/ (horizon 0 (take i tl) < Slice.start sl
           /\ Forall (not_before procs sl) (drop i tl)
           /\ Forall (fun p => Slice.start sl <= Process.arrival p) rest).

(** FCFS starts each process at the later of the end of the previous slice
    and its arrival. *)
Definition starts_at_max (order : list Process) (tl : list Slice) : Prop :=
  forall (i : nat) p sl, order !! i = Some p -> tl !! i = Some sl ->
    Slice.start sl = Z.max (horizon 0 (take i tl)) (Process.arrival p)
    /\ Slice.end_ sl = Slice.start sl + Process.burst p
    /\ Slice.pid sl = Process.pid p.

(** Three processes that are all present at time 0. *)
Definition together : list Process :=
  [Process.mk "A" 0 3 1; Process.mk "B" 0 1 2; Process.mk "C" 0 2 0].

(** Every process has a response time, between 0 and its waiting time. *)
Definition response_bounded (procs : list Process) (r : Result) : Prop :=
  forall p, p ∈ procs ->
    exists resp w, response_times r !! Process.pid p = Some resp
                   /\ waiting_times r !! Process.pid p = Some w
                   /\ 0 <= resp <= w.

(** Every process has a response time equal to its waiting time. *)
Definition response_is_waiting (procs : list Process) (r : Result) : Prop :=
  forall p, p ∈ procs ->
    exists w, response_times r !! Process.pid p = Some w
              /\ waiting_times r !! Process.pid p = Some w.

(** ** Decoding the request: [parse_processes] and the batch of
    [simulate_api]

    An item of the request is a JSON object, a dictionary from strings to
    JSON values.  The JSON values and Python's two builtins applied to them
    are parameters: [value] is the type of the values, [int_value z] is the
    Python integer [z] as a value, [py_str] is [str] and [py_int] is [int],
    which gives [None] where [int] raises [ValueError] or [TypeError]. *)

Inductive parsed (A : Type) : Type :=
  | Parsed (a : A)
  | ParseKeyError
  | ParseIntError.
Arguments Parsed {A} a.
Arguments ParseKeyError {A}.
Arguments ParseIntError {A}.

(** [Process(pid=str(it["pid"]), arrival=int(it.get("arrival", 0)),
             burst=int(it.get("burst", 1)),
             priority=int(it.get("priority", 0)))],
    the arguments being evaluated from left to right. *)
Definition parse_item {value : Type} (int_value : Z -> value)
  (py_str : value -> string) (py_int : value -> option Z)
  (it : gmap string value) : parsed Process :=
  match it !! "pid"%string with
  | None => ParseKeyError
  | Some v =>
      let pid := py_str v in
      match py_int (default (int_value 0) (it !! "arrival"%string)) with
      | None => ParseIntError
      | Some arrival =>
          match py_int (default (int_value 1) (it !! "burst"%string)) with
          | None => ParseIntError
          | Some burst =>
              match py_int (default (int_value 0) (it !! "priority"%string))
              with
              | None => ParseIntError
              | Some priority => Parsed (Process.mk pid arrival burst priority)
              end
          end
      end
  end.

(** The loop [for it in items: procs.append(...)]. *)
Fixpoint parse_items {value : Type} (int_value : Z -> value)
  (py_str : value -> string) (py_int : value -> option Z)
  (items : list (gmap string value)) : parsed (list Process) :=
  match items with
  | [] => Parsed []
  | it :: items' =>
      match parse_item int_value py_str py_int it with
      | Parsed p =>
          match parse_items int_value py_str py_int items' with
          | Parsed procs => Parsed (p :: procs)
          | ParseKeyError => ParseKeyError
          | ParseIntError => ParseIntError
          end
      | ParseKeyError => ParseKeyError
      | ParseIntError => ParseIntError
      end
  end.

(** [key=lambda p: (p.arrival, p.pid)] *)
Definition by_arrival_pid (p q : Process) : bool :=
  if Process.arrival p <? Process.arrival q then true
  else if Process.arrival q <? Process.arrival p then false
  else String.leb (Process.pid p) (Process.pid q).

Definition parse_processes {value : Type} (int_value : Z -> value)
  (py_str : value -> string) (py_int : value -> option Z)
  (items : list (gmap string value)) : parsed (list Process) :=
  match parse_items int_value py_str py_int items with
  | Parsed procs => Parsed (sorted_by by_arrival_pid procs)
  | ParseKeyError => ParseKeyError
  | ParseIntError => ParseIntError
  end.




(** Requests whose JSON values are all integers: [str] prints in decimal and
    [int] is the identity. *)
Definition int_items : list (gmap string Z) :=
  [ {[ "pid"%string := 2; "arrival"%string := 5 ]};
    {[ "pid"%string := 1; "burst"%string := 3 ]} ].

Definition no_pid_items : list (gmap string Z) :=
  [ {[ "pid"%string := 2 ]}; {[ "arrival"%string := 5 ]};
    {[ "pid"%string := 1 ]} ].

(** * Generic facts *)

(** ** Loops *)

Lemma bind_ret {A B} (a : A) (f : A -> outcome B) : (Ret a ≫= f) = f a.
Proof. reflexivity. Qed.

(** Total correctness of a [while] loop: an invariant that every execution of
    the body keeps while a measure decreases holds at exit, and any fuel from
    the initial measure on reaches that exit. *)
Lemma while_total {S} (cond : S -> bool) (body : S -> outcome S)
  (Inv : S -> Prop) (m : S -> nat) :
  (forall s, Inv s -> cond s = true ->
     exists s', body s = Ret s' /\ Inv s' /\ (m s' < m s)%nat) ->
  forall s, Inv s ->
    exists s', (forall fuel, (m s <= fuel)%nat -> while cond body fuel s = Ret s')
               /\ Inv s' /\ cond s' = false.
Proof.
  intros Hstep s.
  remember (m s) as k eqn:Hk. revert s Hk.
  induction k as [k IH] using lt_wf_ind. intros s -> Hs.
  destruct (cond s) eqn:Hc.
  - destruct (Hstep s Hs Hc) as (s1 & Hb & Hs1 & Hlt).
    destruct (IH (m s1) Hlt s1 eq_refl Hs1) as (s' & Hrun & Hs' & Hc').
    exists s'. split; [|done].
    intros [|fuel] Hf; [lia|]. simpl. rewrite Hc, Hb. simpl.
    apply Hrun. lia.
  - exists s. split; [|done]. intros [|fuel] _; simpl; by rewrite Hc.
Qed.

(** More fuel never changes a value already returned. *)
Lemma while_fuel_mono {S} (cond : S -> bool) (body : S -> outcome S)
  (fuel fuel' : nat) (s s' : S) :
  (fuel <= fuel')%nat ->
  while cond body fuel s = Ret s' -> while cond body fuel' s = Ret s'.
Proof.
  revert fuel' s. induction fuel as [|fuel IH]; intros fuel' s Hle; simpl.
  - destruct (cond s) eqn:Hc; [done|]. intros [= <-].
    destruct fuel'; simpl; by rewrite Hc.
  - destruct (cond s) eqn:Hc.
    + destruct fuel' as [|fuel']; [lia|]. simpl. rewrite Hc.
      destruct (body s) as [s1| |]; simpl; [|done..].
      apply IH. lia.
    + intros [= <-]. destruct fuel'; simpl; by rewrite Hc.
Qed.

Lemma returns_unique {A} (run : nat -> outcome A) (a b : A) :
  returns run a -> returns run b -> a = b.
Proof.
  intros [n Hn] [k Hk].
  specialize (Hn (n `max` k)%nat). specialize (Hk (n `max` k)%nat).
  rewrite Hn in Hk by lia. by injection Hk; [|lia].
Qed.


(** ** Stable sorting *)

Section sorting.
Context {A : Type} (le : A -> A -> bool).

Lemma insert_by_perm (x : A) (l : list A) : insert_by le x l ≡ₚ x :: l.
Proof.
  induction l as [|y l IH]; simpl; [done|].
  destruct (le x y); [done|]. rewrite IH. apply Permutation_swap.
Qed.

Lemma sorted_by_perm (l : list A) : sorted_by le l ≡ₚ l.
Proof.
  induction l as [|x l IH]; simpl; [done|].
  rewrite insert_by_perm. by rewrite IH.
Qed.

Lemma sorted_by_nil_inv (l : list A) : sorted_by le l = [] -> l = [].
Proof.
  intros H. apply Permutation_nil_r. rewrite <- H. symmetry. apply sorted_by_perm.
Qed.
End sorting.

(** ** Sums, slices and ordered timelines *)

Lemma Zsum_app (l k : list Z) : Zsum (l ++ k) = Zsum l + Zsum k.
Proof. induction l as [|x l IH]; simpl; [done|]. rewrite IH. lia. Qed.

Lemma Zsum_perm (l k : list Z) : l ≡ₚ k -> Zsum l = Zsum k.
Proof. induction 1; simpl; lia. Qed.

Lemma cpu_time_nil (x : string) : cpu_time x [] = 0.
Proof. reflexivity. Qed.

Lemma cpu_time_snoc (x : string) (tl : list Slice) (sl : Slice) :
  cpu_time x (tl ++ [sl])
  = cpu_time x tl + (if decide (Slice.pid sl = x) then duration sl else 0).
Proof.
  unfold cpu_time, slices_of. rewrite filter_app, fmap_app, Zsum_app.
  f_equal. rewrite filter_cons, filter_nil.
  destruct (decide (Slice.pid sl = x)); simpl; lia.
Qed.

Lemma rem_total_cons (x : string) (e : Process * Z) (rest : list (Process * Z)) :
  rem_total x (e :: rest)
  = (if decide (Process.pid e.1 = x) then e.2 else 0) + rem_total x rest.
Proof.
  unfold rem_total. rewrite filter_cons.
  destruct (decide (Process.pid e.1 = x)); [done|]. by rewrite Z.add_0_l.
Qed.

Lemma rem_total_app (x : string) (r1 r2 : list (Process * Z)) :
  rem_total x (r1 ++ r2) = rem_total x r1 + rem_total x r2.
Proof. unfold rem_total. by rewrite filter_app, fmap_app, Zsum_app. Qed.

Lemma rem_total_perm (x : string) (r1 r2 : list (Process * Z)) :
  r1 ≡ₚ r2 -> rem_total x r1 = rem_total x r2.
Proof. intros H. unfold rem_total. apply Zsum_perm. by rewrite H. Qed.

Lemma burst_total_cons (x : string) (p : Process) (procs : list Process) :
  burst_total x (p :: procs)
  = (if decide (Process.pid p = x) then Process.burst p else 0)
    + burst_total x procs.
Proof.
  unfold burst_total, procs_of. rewrite filter_cons.
  destruct (decide (Process.pid p = x)); [done|]. by rewrite Z.add_0_l.
Qed.

Lemma rem_total_fresh (x : string) (procs : list Process) :
  rem_total x (fresh <$> procs) = burst_total x procs.
Proof.
  induction procs as [|p procs IH]; [done|].
  rewrite fmap_cons, rem_total_cons, burst_total_cons, IH. done.
Qed.

Lemma burst_total_perm (x : string) (ps qs : list Process) :
  ps ≡ₚ qs -> burst_total x ps = burst_total x qs.
Proof. intros H. unfold burst_total, procs_of. apply Zsum_perm. by rewrite H. Qed.

Lemma horizon_snoc (t0 : Z) (tl : list Slice) (sl : Slice) :
  horizon t0 (tl ++ [sl]) = Slice.end_ sl.
Proof. unfold horizon. by rewrite last_snoc. Qed.

Lemma horizon_cons (t0 : Z) (sl : Slice) (tl : list Slice) :
  horizon t0 (sl :: tl) = horizon (Slice.end_ sl) tl.
Proof.
  unfold horizon. destruct tl as [|s' tl]; [done|].
  rewrite last_cons_cons.
  destruct (proj2 (last_is_Some (s' :: tl))) as [y ->]; done.
Qed.

Lemma ordered_from_snoc (t0 : Z) (tl : list Slice) (sl : Slice) :
  ordered_from t0 tl -> horizon t0 tl <= Slice.start sl ->
  Slice.start sl < Slice.end_ sl -> ordered_from t0 (tl ++ [sl]).
Proof.
  revert t0. induction tl as [|s tl IH]; intros t0; simpl.
  - unfold horizon; simpl. tauto.
  - rewrite horizon_cons. intros (H1 & H2 & H3) Hh Hs.
    repeat split; [done..|]. by apply IH.
Qed.

Lemma ordered_from_horizon (t0 : Z) (tl : list Slice) :
  ordered_from t0 tl -> t0 <= horizon t0 tl.
Proof.
  revert t0. induction tl as [|s tl IH]; intros t0; simpl.
  - unfold horizon; simpl. lia.
  - rewrite horizon_cons. intros (H1 & H2 & H3). specialize (IH _ H3). lia.
Qed.

Lemma ordered_from_weaken (t0 t1 : Z) (tl : list Slice) :
  t1 <= t0 -> ordered_from t0 tl -> ordered_from t1 tl.
Proof. destruct tl; simpl; [done|]. intros ? (? & ? & ?). repeat split; [lia|done..]. Qed.

(** ** Timelines under construction *)

Lemma partial_init (procs : list Process) :
  bursts_positive procs -> partial procs (fresh <$> procs) 0 [].
Proof.
  intros Hb. split.
  - intros x. rewrite cpu_time_nil, rem_total_fresh. lia.
  - done.
  - done.
  - constructor.
  - unfold bursts_positive in Hb. rewrite Forall_forall in Hb.
    apply Forall_fmap, Forall_forall. intros p Hp. simpl.
    specialize (Hb p Hp). simpl in Hb. split; [done|lia].
Qed.

Lemma partial_perm (procs : list Process) (r1 r2 : list (Process * Z)) (t : Z)
  (tl : list Slice) :
  r1 ≡ₚ r2 -> partial procs r1 t tl -> partial procs r2 t tl.
Proof.
  intros Hp [H1 H2 H3 H4 H5]. split; [|done..|by rewrite <- Hp].
  intros x. rewrite <- (rem_total_perm x _ _ Hp). apply H1.
Qed.

Lemma partial_wait (procs : list Process) (rest : list (Process * Z))
  (t t' : Z) (tl : list Slice) :
  t <= t' -> partial procs rest t tl -> partial procs rest t' tl.
Proof. intros Ht [H1 H2 H3 H4 H5]. split; [done..|lia|done|done]. Qed.

(** Running the process [p] for [use] units from the clock [t]. *)
Lemma partial_run (procs : list Process) (p : Process) (rem : Z)
  (rest : list (Process * Z)) (t use : Z) (tl : list Slice) :
  partial procs ((p, rem) :: rest) t tl ->
  Process.arrival p <= t -> 0 < use <= rem ->
  partial procs ((if 0 <? rem - use then [(p, rem - use)] else []) ++ rest)
    (t + use) (tl ++ [Slice.mk (Process.pid p) t (t + use)]).
Proof.
  intros [H1 H2 H3 H4 H5] Ha Hu.
  apply Forall_cons in H5 as [[Hp Hrem] H5]. simpl in Hp, Hrem.
  split.
  - intros x. specialize (H1 x).
    rewrite cpu_time_snoc, rem_total_app. rewrite rem_total_cons in H1.
    unfold duration. simpl in *.
    destruct (0 <? rem - use) eqn:Hr.
    + rewrite rem_total_cons. simpl.
      change (rem_total x []) with 0.
      destruct (decide (Process.pid p = x)); lia.
    + change (rem_total x []) with 0.
      destruct (decide (Process.pid p = x)); lia.
  - apply ordered_from_snoc; simpl; [done|lia|lia].
  - rewrite horizon_snoc. simpl. lia.
  - apply Forall_app. split; [done|]. constructor; [|constructor].
    exists p. simpl. done.
  - apply Forall_app. split; [|done].
    destruct (0 <? rem - use) eqn:Hr; constructor; [|constructor].
    simpl. split; [done|lia].
Qed.

Lemma partial_done (procs : list Process) (t : Z) (tl : list Slice) :
  partial procs [] t tl -> schedule procs tl.
Proof.
  intros [H1 H2 H3 H4 _]. split; [|done..].
  intros x. specialize (H1 x). change (rem_total x []) with 0 in H1. lia.
Qed.

Lemma schedule_perm (ps qs : list Process) (tl : list Slice) :
  ps ≡ₚ qs -> schedule ps tl -> schedule qs tl.
Proof.
  intros Hp [H1 H2 H3]. split; [|done|].
  - intros x. rewrite <- (burst_total_perm x _ _ Hp). apply H1.
  - eapply Forall_impl; [exact H3|]. intros sl (p & Hin & ?).
    exists p. by rewrite <- Hp.
Qed.

(** ** Arrival order and admission *)

Lemma insert_by_arrival_sorted (p : Process) (l : list Process) :
  StronglySorted arrival_le l ->
  StronglySorted arrival_le (insert_by by_arrival p l).
Proof.
  induction 1 as [|q l Hs IH Hq]; simpl.
  - repeat constructor.
  - unfold by_arrival at 1. destruct (Z.leb_spec (Process.arrival p) (Process.arrival q)).
    + constructor; [by constructor|]. constructor; [done|].
      eapply Forall_impl; [exact Hq|]. unfold arrival_le. intros; simpl in *; lia.
    + constructor; [done|]. rewrite insert_by_perm.
      constructor; [|done]. unfold arrival_le. lia.
Qed.

Lemma sorted_by_arrival_sorted (l : list Process) :
  StronglySorted arrival_le (sorted_by by_arrival l).
Proof.
  induction l as [|p l IH]; simpl; [constructor|].
  by apply insert_by_arrival_sorted.
Qed.

(** The sort is stable: processes with the same arrival keep their order. *)
Lemma insert_by_arrival_filter (a : Z) (p : Process) (l : list Process) :
  filter (fun q => Process.arrival q = a) (insert_by by_arrival p l)
  = filter (fun q => Process.arrival q = a) (p :: l).
Proof.
  induction l as [|q l IH]; simpl; [done|].
  unfold by_arrival at 1.
  destruct (Z.leb_spec (Process.arrival p) (Process.arrival q)) as [Hle|Hlt];
    [done|].
  rewrite filter_cons, IH, !filter_cons.
  destruct (decide (Process.arrival q = a)), (decide (Process.arrival p = a));
    try done; lia.
Qed.

Lemma sorted_by_arrival_stable (a : Z) (l : list Process) :
  filter (fun q => Process.arrival q = a) (sorted_by by_arrival l)
  = filter (fun q => Process.arrival q = a) l.
Proof.
  induction l as [|p l IH]; simpl; [done|].
  by rewrite insert_by_arrival_filter, !filter_cons, IH.
Qed.

Lemma StronglySorted_drop {A} (R : A -> A -> Prop) (l : list A) (n : nat) :
  StronglySorted R l -> StronglySorted R (drop n l).
Proof.
  intros H. revert n. induction H as [|x l Hs IH Hx]; intros [|n]; simpl;
    [constructor..|by constructor|apply IH].
Qed.

(** The admission loop moves a prefix of the pending processes to the back of
    the queue: those that have arrived, up to the first that has not. *)
Lemma enqueue_arrived_spec {A} (item : Process -> A) (pending : list Process)
  (t : Z) (i : nat) (queue : list A) :
  exists k : nat,
    enqueue_arrived item pending t i queue
    = ((i + k)%nat, queue ++ (item <$> take k pending))
    /\ (k <= length pending)%nat
    /\ Forall (fun p => Process.arrival p <= t) (take k pending)
    /\ (forall p, head (drop k pending) = Some p -> t < Process.arrival p).
Proof.
  revert i queue. induction pending as [|p pending IH]; intros i queue; simpl.
  - exists 0%nat. rewrite Nat.add_0_r, app_nil_r. repeat split; [lia|constructor|done].
  - destruct (Z.leb_spec (Process.arrival p) t) as [Hle|Hgt].
    + destruct (IH (S i) (queue ++ [item p])) as (k & -> & Hk & Hall & Hhd).
      exists (S k). simpl. rewrite <- app_assoc. simpl.
      repeat split; [f_equal; lia|lia|by constructor|done].
    + exists 0%nat. simpl. rewrite Nat.add_0_r, app_nil_r.
      repeat split; [lia|constructor|]. by intros ? [= <-].
Qed.

(** In a list sorted by arrival, nothing that has arrived stays pending. *)
Lemma sorted_head_late (t : Z) (l : list Process) :
  StronglySorted arrival_le l ->
  (forall p, head l = Some p -> t < Process.arrival p) ->
  Forall (fun p => t < Process.arrival p) l.
Proof.
  intros Hs Hh. destruct Hs as [|p l Hs Hp]; [constructor|].
  specialize (Hh p eq_refl). constructor; [done|].
  eapply Forall_impl; [exact Hp|]. unfold arrival_le. intros; simpl in *; lia.
Qed.

(** ** First come, first served *)

Lemma fcfs_fold_partial (procs l : list Process) (t : Z) (tl : list Slice) :
  partial procs (fresh <$> l) t tl ->
  partial procs [] (foldl fcfs_step (t, tl) l).1 (foldl fcfs_step (t, tl) l).2.
Proof.
  revert t tl. induction l as [|p l IH]; intros t tl Hp; simpl; [done|].
  apply IH.
  set (t' := if t <? Process.arrival p then Process.arrival p else t).
  assert (Ht : t <= t' /\ Process.arrival p <= t').
  { unfold t'. destruct (Z.ltb_spec t (Process.arrival p)); lia. }
  pose proof (part_rest _ _ _ _ Hp) as Hr. rewrite fmap_cons in Hr.
  apply Forall_cons in Hr as [[_ Hb] _]. simpl in Hb.
  apply (partial_wait _ _ _ t') in Hp; [|lia].
  rewrite fmap_cons in Hp. unfold fresh at 1 in Hp.
  apply (partial_run _ _ _ _ _ (Process.burst p)) in Hp; [|lia|lia].
  rewrite Z.sub_diag in Hp. exact Hp.
Qed.

Lemma fcfs_fold_pids (l : list Process) (t : Z) (tl : list Slice) :
  Slice.pid <$> (foldl fcfs_step (t, tl) l).2 = (Slice.pid <$> tl) ++ pids l.
Proof.
  revert t tl. induction l as [|p l IH]; intros t tl; simpl.
  - by rewrite app_nil_r.
  - rewrite IH, fmap_app. simpl. by rewrite <- app_assoc.
Qed.

Lemma fcfs_timeline_schedule (processes : list Process) :
  bursts_positive processes -> schedule processes (fcfs_timeline processes).
Proof.
  intros Hb. apply (schedule_perm (sorted_by by_arrival processes));
    [apply sorted_by_perm|].
  eapply partial_done. apply fcfs_fold_partial, partial_init.
  unfold bursts_positive. by rewrite sorted_by_perm.
Qed.

Lemma fcfs_timeline_pids (processes : list Process) :
  Slice.pid <$> fcfs_timeline processes = pids (sorted_by by_arrival processes).
Proof. unfold fcfs_timeline. by rewrite fcfs_fold_pids. Qed.

Lemma enqueue_arrived_nonempty {A} (item : Process -> A) (p : Process)
  (pending : list Process) (t : Z) (i : nat) (queue : list A) :
  Process.arrival p <= t ->
  idle (enqueue_arrived item (p :: pending) t i queue).2 = 0%nat.
Proof.
  intros Hp. simpl. destruct (Z.leb_spec (Process.arrival p) t); [|lia].
  destruct (enqueue_arrived_spec item pending t (S i) (queue ++ [item p]))
    as (k & -> & _).
  simpl. rewrite <- app_assoc. by destruct queue.
Qed.

Lemma drop_head_lookup {A} (l : list A) (i : nat) : head (drop i l) = l !! i.
Proof. by rewrite head_lookup, lookup_drop, Nat.add_0_r. Qed.

(** ** The non-preemptive loop *)

Section non_preemptive.
Context (le : Process -> Process -> bool) (procs : list Process).

Lemma np_step (st : np_state) :
  np_inv procs st -> np_cond procs st = true ->
  exists st', np_body le procs st = Ret st' /\ np_inv procs st'
              /\ (np_measure procs st' < np_measure procs st)%nat.
Proof.
  destruct st as [t ready i tl]. unfold np_inv, np_cond, np_measure, np_body.
  simpl. intros (Hpart & Hready & Hperm & Hi) Hcond.
  destruct (enqueue_arrived_spec id (drop i procs) t i ready)
    as (k & -> & Hk & Harr & Hhd).
  rewrite list_fmap_id. simpl. rewrite length_drop in Hk.
  destruct (ready ++ take k (drop i procs)) as [|r rs] eqn:Hq.
  - (* nothing is ready: the clock jumps to the next arrival *)
    apply app_eq_nil in Hq as [-> Htk]. simpl in *.
    rewrite orb_false_r, bool_decide_eq_true in Hcond.
    destruct (lookup_lt_is_Some_2 procs i Hcond) as [p Hp].
    assert (k = 0)%nat as ->.
    { destruct k; [done|]. rewrite <- drop_head_lookup in Hp.
      destruct (drop i procs); simplify_eq. }
    rewrite drop_0, drop_head_lookup in Hhd. specialize (Hhd p Hp).
    rewrite Nat.add_0_r. unfold index. rewrite Hp. simpl.
    eexists. split; [done|]. simpl. split_and!; [|done..|].
    + eapply partial_wait; [|done]. lia.
    + rewrite <- drop_head_lookup in Hp.
      destruct (drop i procs) as [|p' pend]; [done|]. injection Hp as ->.
      rewrite enqueue_arrived_nonempty by lia. lia.
  - (* the selected process runs to completion *)
    assert (Hsorted := sorted_by_perm le (r :: rs)).
    destruct (sorted_by le (r :: rs)) as [|p ready'] eqn:Hs.
    { by apply Permutation_nil_l in Hsorted. }
    assert (Hall : Forall (fun p => Process.arrival p <= t) (p :: ready')).
    { rewrite Hsorted, <- Hq. by apply Forall_app. }
    apply Forall_cons in Hall as [Hp Hall].
    assert (Hrest : ready ++ drop i procs ≡ₚ p :: ready' ++ drop (i + k) procs).
    { rewrite <- (take_drop k (drop i procs)) at 1. rewrite drop_drop.
      rewrite app_assoc, Hq, <- Hsorted. done. }
    eexists. split; [done|]. simpl.
    assert (Hpart' := partial_perm _ _ _ _ _ (fmap_Permutation fresh _ _ Hrest) Hpart).
    rewrite fmap_cons in Hpart'. unfold fresh at 1 in Hpart'.
    pose proof (part_rest _ _ _ _ Hpart') as Hr.
    apply Forall_cons in Hr as [[_ Hb] _]. simpl in Hb.
    apply (partial_run _ _ _ _ _ (Process.burst p)) in Hpart'; [|done|lia].
    rewrite Z.sub_diag in Hpart'. simpl in Hpart'.
    split_and!.
    + done.
    + eapply Forall_impl; [exact Hall|]. intros; simpl in *; lia.
    + unfold pids in *. rewrite <- Hperm, Hrest, fmap_app, fmap_cons.
      by rewrite <- app_assoc.
    + lia.
    + apply (f_equal length) in Hq. rewrite length_app, length_take, length_drop in Hq.
      apply Permutation_length in Hsorted. simpl in *.
      destruct (enqueue_arrived _ _ _ _ _) as [i' q']. simpl.
      assert (idle q' <= 1)%nat by (destruct q'; simpl; lia). lia.
Qed.

Lemma np_loop_spec :
  bursts_positive procs ->
  exists st,
    (forall fuel, (np_measure procs (mk_np 0 [] 0 []) <= fuel)%nat ->
       while (np_cond procs) (np_body le procs) fuel (mk_np 0 [] 0 []) = Ret st)
    /\ schedule procs (np_timeline st)
    /\ Slice.pid <$> np_timeline st ≡ₚ pids procs.
Proof.
  intros Hb.
  destruct (while_total (np_cond procs) (np_body le procs) (np_inv procs)
              (np_measure procs) np_step (mk_np 0 [] 0 []))
    as (st & Hrun & (Hpart & _ & Hperm & _) & Hexit).
  { unfold np_inv. simpl. rewrite drop_0. split_and!;
      [by apply partial_init|constructor|done|lia]. }
  exists st. split; [done|].
  unfold np_cond in Hexit. apply orb_false_elim in Hexit as [Hi Hr].
  apply bool_decide_eq_false in Hi. apply negb_false_iff, bool_decide_eq_true in Hr.
  rewrite Hr, drop_ge in Hpart, Hperm by lia. simpl in *.
  split; [by eapply partial_done|]. by rewrite app_nil_r in Hperm.
Qed.
End non_preemptive.

Lemma np_timeline_of_spec (le : Process -> Process -> bool)
  (processes : list Process) :
  bursts_positive processes ->
  exists tl, returns (np_timeline_of le processes) tl
             /\ schedule processes tl
             /\ Slice.pid <$> tl ≡ₚ pids processes.
Proof.
  intros Hb. pose proof (sorted_by_perm by_arrival processes) as Hs.
  destruct (np_loop_spec le (sorted_by by_arrival processes))
    as (st & Hrun & Hsched & Hperm).
  { unfold bursts_positive. by rewrite Hs. }
  exists (np_timeline st). split_and!.
  - eexists. intros fuel Hf. unfold np_timeline_of. by rewrite (Hrun fuel Hf).
  - by eapply schedule_perm.
  - rewrite Hperm. unfold pids. by rewrite Hs.
Qed.

(** ** The round-robin loop *)

Lemma work_app (r1 r2 : list (Process * Z)) : work (r1 ++ r2) = (work r1 + work r2)%nat.
Proof. apply sum_list_with_app. Qed.

Lemma work_perm (r1 r2 : list (Process * Z)) : r1 ≡ₚ r2 -> work r1 = work r2.
Proof. intros H. unfold work. by rewrite H. Qed.

Lemma work_cons (e : Process * Z) (rest : list (Process * Z)) :
  work (e :: rest) = (Z.to_nat (Z.max 1 e.2) + work rest)%nat.
Proof. reflexivity. Qed.

Lemma idle_le_1 {A} (queue : list A) : (idle queue <= 1)%nat.
Proof. destruct queue; simpl; lia. Qed.

Section round_robin.
Context (quantum : Z) (procs : list Process).
Hypothesis quantum_pos : 1 <= quantum.

Lemma rr_step (st : rr_state) :
  rr_inv procs st -> rr_cond procs st = true ->
  exists st', rr_body quantum procs st = Ret st' /\ rr_inv procs st'
              /\ (rr_measure procs st' < rr_measure procs st)%nat.
Proof.
  destruct st as [t queue i tl]. unfold rr_inv, rr_cond, rr_measure, rr_body.
  simpl. intros (Hq & Htl & Hi & Hstrong) Hcond.
  destruct (enqueue_arrived_spec fresh (drop i procs) t i queue)
    as (k & -> & Hk & Harr & Hhd).
  simpl. rewrite length_drop in Hk.
  assert (Hsplit : drop i procs = take k (drop i procs) ++ drop (i + k) procs).
  { by rewrite <- drop_drop, take_drop. }
  assert (Hin : Forall (fun e : Process * Z => e.1 ∈ procs)
                  (fresh <$> take k (drop i procs))).
  { apply Forall_fmap, Forall_forall. intros p Hp. simpl.
    eapply (subseteq_drop i), (subseteq_take k), Hp. }
  destruct (queue ++ (fresh <$> take k (drop i procs))) as [|[p rem] queue'] eqn:Hqe.
  - (* the queue is empty: the clock jumps to the next arrival *)
    apply app_eq_nil in Hqe as [-> Htk]. apply fmap_nil_inv in Htk. simpl in *.
    rewrite orb_false_r, bool_decide_eq_true in Hcond.
    destruct (lookup_lt_is_Some_2 procs i Hcond) as [p Hp].
    assert (k = 0)%nat as ->.
    { destruct k; [done|]. rewrite <- drop_head_lookup in Hp.
      destruct (drop i procs); simplify_eq. }
    rewrite drop_0, drop_head_lookup in Hhd. specialize (Hhd p Hp).
    rewrite Nat.add_0_r. unfold index. rewrite Hp. simpl.
    eexists. split; [done|]. simpl. split_and!; [done..| |].
    + intros Hb. destruct (Hstrong Hb) as [Hpart _]. split; [|constructor].
      eapply partial_wait; [|done]. lia.
    + rewrite <- drop_head_lookup in Hp.
      destruct (drop i procs) as [|p' pend]; [done|]. injection Hp as ->.
      rewrite enqueue_arrived_nonempty by lia. lia.
  - (* the head of the queue runs for one quantum at most *)
    set (use := Z.min quantum rem).
    destruct (enqueue_arrived_spec fresh (drop (i + k) procs) (t + use)
                (i + k) queue')
      as (k2 & -> & Hk2 & Harr2 & Hhd2).
    rewrite length_drop in Hk2.
    assert (Hsplit2 : drop (i + k) procs
              = take k2 (drop (i + k) procs) ++ drop (i + k + k2) procs).
    { by rewrite <- (drop_drop procs k2 (i + k)), take_drop. }
    assert (Hin2 : Forall (fun e : Process * Z => e.1 ∈ procs)
                     (fresh <$> take k2 (drop (i + k) procs))).
    { apply Forall_fmap, Forall_forall. intros p' Hp'. simpl.
      eapply (subseteq_drop (i + k)), (subseteq_take k2), Hp'. }
    assert (Hall : Forall (fun e : Process * Z => e.1 ∈ procs) ((p, rem) :: queue')).
    { rewrite <- Hqe. by apply Forall_app. }
    apply Forall_cons in Hall as [Hp Hall]. simpl in Hp.
    set (back := if 0 <? rem - use then [(p, rem - use)] else []).
    assert (Hback : (if 0 <? rem - use
                     then (queue' ++ (fresh <$> take k2 (drop (i + k) procs)))
                          ++ [(p, rem - use)]
                     else queue' ++ (fresh <$> take k2 (drop (i + k) procs)))
                    = (queue' ++ (fresh <$> take k2 (drop (i + k) procs))) ++ back).
    { unfold back. destruct (0 <? rem - use); [done|by rewrite app_nil_r]. }
    rewrite Hback. clear Hback.
    assert (Hrest : queue ++ (fresh <$> drop i procs)
                    ≡ₚ (p, rem) :: queue' ++ (fresh <$> drop (i + k) procs)).
    { rewrite Hsplit at 1. rewrite fmap_app, app_assoc, Hqe. done. }
    assert (Hrest2 : back ++ queue' ++ (fresh <$> drop (i + k) procs)
              ≡ₚ ((queue' ++ (fresh <$> take k2 (drop (i + k) procs))) ++ back)
                 ++ (fresh <$> drop (i + k + k2) procs)).
    { rewrite Hsplit2 at 1. rewrite fmap_app.
      rewrite (Permutation_app_comm _ back), <- !app_assoc.
      rewrite (Permutation_app_comm back). by rewrite <- !app_assoc. }
    eexists. split; [done|]. simpl. split_and!.
    + apply Forall_app. split; [by apply Forall_app|].
      unfold back. destruct (0 <? rem - use); repeat constructor. done.
    + apply Forall_app. split; [done|]. repeat constructor. simpl.
      unfold pids. by apply list_elem_of_fmap_2.
    + lia.
    + intros Hb. destruct (Hstrong Hb) as [Hpart Hready].
      assert (Hpart' := partial_perm _ _ _ _ _ Hrest Hpart).
      pose proof (part_rest _ _ _ _ Hpart') as Hr.
      apply Forall_cons in Hr as [[_ Hrem] _]. simpl in Hrem.
      assert (Hp_arr : Forall (fun e : Process * Z => Process.arrival e.1 <= t)
                        ((p, rem) :: queue')).
      { rewrite <- Hqe. apply Forall_app. split; [done|]. by apply Forall_fmap. }
      apply Forall_cons in Hp_arr as [Hpa Hqa]. simpl in Hpa.
      assert (Huse : 0 < use <= rem) by (unfold use; lia).
      apply (partial_run _ _ _ _ _ use) in Hpart'; [|done|done].
      fold back in Hpart'. split.
      * eapply partial_perm; [exact Hrest2|done].
      * apply Forall_app. split; [apply Forall_app; split|].
        -- eapply Forall_impl; [exact Hqa|]. intros; simpl in *; lia.
        -- by apply Forall_fmap.
        -- unfold back. destruct (0 <? rem - use); repeat constructor.
           simpl. lia.
    + assert (Hw1 : (work queue + work (fresh <$> drop i procs)
               = Z.to_nat (Z.max 1 rem) + work (queue' ++ (fresh <$> drop (i + k) procs)))%nat).
      { rewrite <- work_app, (work_perm _ _ Hrest). apply work_cons. }
      assert (Hw2 : (work ((queue' ++ (fresh <$> take k2 (drop (i + k) procs))) ++ back)
                + work (fresh <$> drop (i + k + k2) procs)
               = work back + work (queue' ++ (fresh <$> drop (i + k) procs)))%nat).
      { rewrite <- !work_app, <- (work_perm _ _ Hrest2). by rewrite !work_app. }
      assert (Hw3 : (work back < Z.to_nat (Z.max 1 rem))%nat).
      { unfold back. destruct (Z.ltb_spec 0 (rem - use)); simpl; unfold use in *; lia. }
      rewrite Hw1, Hw2.
      match goal with |- context [idle ?q] => pose proof (idle_le_1 q) end.
      lia.
Qed.

Lemma rr_loop_spec :
  exists st,
    (forall fuel, (rr_measure procs (mk_rr 0 [] 0 []) <= fuel)%nat ->
       while (rr_cond procs) (rr_body quantum procs) fuel (mk_rr 0 [] 0 [])
       = Ret st)
    /\ Forall (fun sl => Slice.pid sl ∈ pids procs) (rr_timeline st)
    /\ (bursts_positive procs -> schedule procs (rr_timeline st)).
Proof.
  destruct (while_total (rr_cond procs) (rr_body quantum procs) (rr_inv procs)
              (rr_measure procs) rr_step (mk_rr 0 [] 0 []))
    as (st & Hrun & (_ & Htl & _ & Hstrong) & Hexit).
  { unfold rr_inv. simpl. rewrite drop_0. split_and!; [constructor..|lia|].
    intros Hb. split; [by apply partial_init|constructor]. }
  exists st. split_and!; [done..|].
  intros Hb. destruct (Hstrong Hb) as [Hpart _].
  unfold rr_cond in Hexit. apply orb_false_elim in Hexit as [Hi Hr].
  apply bool_decide_eq_false in Hi. apply negb_false_iff, bool_decide_eq_true in Hr.
  rewrite Hr, drop_ge in Hpart by lia. by eapply partial_done.
Qed.
End round_robin.

Lemma rr_timeline_of_spec (quantum : Z) (processes : list Process) :
  1 <= quantum ->
  exists tl, returns (rr_timeline_of quantum processes) tl
             /\ Forall (fun sl => Slice.pid sl ∈ pids processes) tl
             /\ (bursts_positive processes -> schedule processes tl).
Proof.
  intros Hq. pose proof (sorted_by_perm by_arrival processes) as Hs.
  destruct (rr_loop_spec quantum (sorted_by by_arrival processes) Hq)
    as (st & Hrun & Hpids & Hsched).
  exists (rr_timeline st). split_and!.
  - eexists. intros fuel Hf. unfold rr_timeline_of. by rewrite (Hrun fuel Hf).
  - eapply Forall_impl; [exact Hpids|]. intros sl. unfold pids. by rewrite Hs.
  - intros Hb. eapply schedule_perm; [exact Hs|]. apply Hsched.
    unfold bursts_positive. by rewrite Hs.
Qed.

(** ** The metrics calculator *)

Lemma filter_none {A} (P : A -> Prop) `{!forall x, Decision (P x)} (l : list A) :
  (forall x, x ∈ l -> ~ P x) -> filter P l = [].
Proof.
  induction l as [|x l IH]; intros Hl; [done|].
  rewrite filter_cons_False; [|apply Hl; by left].
  apply IH. intros y Hy. apply Hl. by right.
Qed.

Lemma owner_cons (x : string) (p : Process) (procs : list Process) :
  owner x (p :: procs)
  = match owner x procs with
    | Some q => Some q
    | None => if decide (Process.pid p = x) then Some p else None
    end.
Proof.
  unfold owner, procs_of. rewrite filter_cons.
  destruct (decide (Process.pid p = x)); [|by destruct (last _)].
  by rewrite last_cons.
Qed.

Lemma owner_Some (x : string) (procs : list Process) (p : Process) :
  owner x procs = Some p -> p ∈ procs /\ Process.pid p = x.
Proof.
  unfold owner, procs_of. intros H. apply last_Some_elem_of in H.
  by apply list_elem_of_filter in H as [? ?].
Qed.

Lemma owner_None (x : string) (procs : list Process) :
  owner x procs = None <-> x ∉ pids procs.
Proof.
  unfold owner, procs_of, pids. rewrite last_None. split.
  - intros Hnil (p & -> & Hp)%list_elem_of_fmap.
    assert (p ∈ filter (fun q => Process.pid q = Process.pid p) procs) as Hin
      by by apply list_elem_of_filter.
    rewrite Hnil in Hin. by apply not_elem_of_nil in Hin.
  - intros Hx. apply filter_none. intros p Hp <-.
    apply Hx. by apply list_elem_of_fmap_2.
Qed.

(** With pairwise distinct pids every process owns its pid. *)
Lemma procs_of_unique (procs : list Process) (p : Process) :
  NoDup (pids procs) -> p ∈ procs -> procs_of (Process.pid p) procs = [p].
Proof.
  unfold pids, procs_of. induction procs as [|q procs IH]; intros Hnd Hp.
  - by apply not_elem_of_nil in Hp.
  - rewrite fmap_cons in Hnd. apply NoDup_cons in Hnd as [Hq Hnd].
    rewrite filter_cons. apply elem_of_cons in Hp as [->|Hp].
    + rewrite decide_True by done. f_equal.
      apply filter_none. intros p' Hp' Heq. apply Hq.
      rewrite <- Heq. by apply list_elem_of_fmap_2.
    + rewrite decide_False; [by apply IH|].
      intros Heq. apply Hq. rewrite Heq. by apply list_elem_of_fmap_2.
Qed.

Lemma owner_unique (procs : list Process) (p : Process) :
  NoDup (pids procs) -> p ∈ procs -> owner (Process.pid p) procs = Some p.
Proof. intros Hnd Hp. unfold owner. by rewrite procs_of_unique. Qed.

Lemma burst_total_unique (procs : list Process) (p : Process) :
  NoDup (pids procs) -> p ∈ procs ->
  burst_total (Process.pid p) procs = Process.burst p.
Proof.
  intros Hnd Hp. unfold burst_total. rewrite procs_of_unique by done.
  simpl. lia.
Qed.

Lemma dict_of_pids_lookup {V} (v : V) (procs : list Process) (x : string) :
  dict_of_pids v procs !! x = if decide (x ∈ pids procs) then Some v else None.
Proof.
  unfold dict_of_pids, pids.
  assert (H : forall d : gmap string V,
    foldl (fun d p => <[Process.pid p := v]> d) d procs !! x
    = if decide (x ∈ Process.pid <$> procs) then Some v else d !! x).
  { induction procs as [|p procs IH]; intros d; [done|].
    rewrite fmap_cons. cbn [foldl].
    rewrite IH. destruct (decide (x ∈ Process.pid <$> procs)) as [Hx|Hx].
      + rewrite decide_True; [done|by right].
      + destruct (decide (Process.pid p = x)) as [<-|Hne].
        * rewrite lookup_insert_eq, decide_True; [done|by left].
        * rewrite lookup_insert_ne by done. rewrite decide_False; [done|].
          intros [?|?]%elem_of_cons; congruence. }
  rewrite H. by rewrite lookup_empty.
Qed.

Lemma first_start_of_cons (x : string) (sl : Slice) (tl : list Slice) :
  first_start_of x (sl :: tl)
  = if decide (Slice.pid sl = x) then Some (Slice.start sl) else first_start_of x tl.
Proof.
  unfold first_start_of, slices_of. rewrite filter_cons.
  by destruct (decide (Slice.pid sl = x)).
Qed.

Lemma last_slices_of_cons (x : string) (sl : Slice) (tl : list Slice) :
  last (slices_of x (sl :: tl))
  = match last (slices_of x tl) with
    | Some s => Some s
    | None => if decide (Slice.pid sl = x) then Some sl else None
    end.
Proof.
  unfold slices_of. rewrite filter_cons.
  destruct (decide (Slice.pid sl = x)); [|by destruct (last _)].
  by rewrite last_cons.
Qed.

Lemma record_slice_Some (fs : gmap string (option Z)) (ft : gmap string Z)
  (sl : Slice) (o : option Z) :
  fs !! Slice.pid sl = Some o ->
  record_slice (fs, ft) sl
  = Ret (match o with
         | Some _ => fs
         | None => <[Slice.pid sl := Some (Slice.start sl)]> fs
         end, <[Slice.pid sl := Slice.end_ sl]> ft).
Proof. intros H. unfold record_slice, getitem. rewrite H. by destruct o. Qed.

Lemma record_slice_None (fs : gmap string (option Z)) (ft : gmap string Z)
  (sl : Slice) :
  fs !! Slice.pid sl = None -> record_slice (fs, ft) sl = Raise KeyError.
Proof. intros H. unfold record_slice, getitem. by rewrite H. Qed.

Lemma add_run_time_Some (rt : gmap string Z) (sl : Slice) (v : Z) :
  rt !! Slice.pid sl = Some v ->
  add_run_time rt sl
  = Ret (<[Slice.pid sl := v + (Slice.end_ sl - Slice.start sl)]> rt).
Proof. intros H. unfold add_run_time, getitem. by rewrite H. Qed.

Lemma record_process_Some (fs : gmap string (option Z)) (ft : gmap string Z)
  (rs ts ws : gmap string Z) (p : Process) (o : option Z) (f : Z) :
  fs !! Process.pid p = Some o -> ft !! Process.pid p = Some f ->
  record_process fs ft (rs, ts, ws) p
  = Ret (<[Process.pid p := match o with
                            | Some s => s - Process.arrival p
                            | None => 0
                            end]> rs,
         <[Process.pid p := f - Process.arrival p]> ts,
         <[Process.pid p := f - Process.arrival p - Process.burst p]> ws).
Proof. intros H1 H2. unfold record_process, getitem. by rewrite H1, H2. Qed.

(** The first loop: it fails on the first slice whose pid is not a key, and
    otherwise records the first start and the last end of every pid. *)
Lemma record_slices_spec (tl : list Slice) (fs : gmap string (option Z))
  (ft : gmap string Z) :
  Forall (fun sl => is_Some (fs !! Slice.pid sl)) tl ->
  exists fs' ft',
    for_each record_slice (fs, ft) tl = Ret (fs', ft')
    /\ (forall x, fs' !! x = match fs !! x with
                             | Some None => Some (first_start_of x tl)
                             | o => o
                             end)
    /\ (forall x, ft' !! x = match last (slices_of x tl) with
                             | Some s => Some (Slice.end_ s)
                             | None => ft !! x
                             end).
Proof.
  revert fs ft. induction tl as [|sl tl IH]; intros fs ft Hk.
  - exists fs, ft. split_and!; [done| |done].
    intros x. by destruct (fs !! x) as [[]|].
  - apply Forall_cons in Hk as [[o Ho] Hk]. cbn [for_each].
    rewrite (record_slice_Some _ _ _ _ Ho), bind_ret.
    set (fs1 := match o with
                | Some _ => fs
                | None => <[Slice.pid sl := Some (Slice.start sl)]> fs
                end).
    assert (Hfs1 : forall x, fs1 !! x
              = if decide (Slice.pid sl = x)
                then Some (Some (default (Slice.start sl) o)) else fs !! x).
    { intros x. unfold fs1. destruct (decide (Slice.pid sl = x)) as [<-|Hne].
      - destruct o; simpl; [done|]. by rewrite lookup_insert_eq.
      - destruct o; [done|]. by rewrite lookup_insert_ne. }
    destruct (IH fs1 (<[Slice.pid sl := Slice.end_ sl]> ft)) as (fs' & ft' & -> & Hf & Hl).
    { eapply Forall_impl; [exact Hk|]. intros s [v Hv]. rewrite Hfs1.
      destruct (decide _); [done|]. by rewrite Hv. }
    exists fs', ft'. split_and!; [done| |].
    + intros x. rewrite Hf, Hfs1, first_start_of_cons.
      destruct (decide (Slice.pid sl = x)) as [<-|Hne]; [|done].
      rewrite Ho. by destruct o.
    + intros x. rewrite Hl, last_slices_of_cons.
      destruct (last (slices_of x tl)); [done|].
      destruct (decide (Slice.pid sl = x)) as [<-|Hne].
      * by rewrite lookup_insert_eq.
      * by rewrite lookup_insert_ne.
Qed.

Lemma record_slices_fail (tl : list Slice) (fs : gmap string (option Z))
  (ft : gmap string Z) :
  Exists (fun sl => fs !! Slice.pid sl = None) tl ->
  for_each record_slice (fs, ft) tl = Raise KeyError.
Proof.
  revert fs ft. induction tl as [|sl tl IH]; intros fs ft Hk.
  - by apply Exists_nil in Hk.
  - cbn [for_each].
    destruct (fs !! Slice.pid sl) as [o|] eqn:Ho;
      [|by rewrite (record_slice_None _ _ _ Ho)].
    rewrite (record_slice_Some _ _ _ _ Ho), bind_ret.
    apply Exists_cons in Hk as [Hk|Hk]; [congruence|].
    apply IH. eapply Exists_impl; [exact Hk|]. intros s Hs. simpl in *.
    destruct o; [done|].
    destruct (decide (Slice.pid sl = Slice.pid s)) as [Heq|Hne]; [congruence|].
    by rewrite lookup_insert_ne.
Qed.

(** The second loop succeeds as soon as every slice pid is a key. *)
Lemma add_run_times_ok (tl : list Slice) (rt : gmap string Z) :
  Forall (fun sl => is_Some (rt !! Slice.pid sl)) tl ->
  exists rt', for_each add_run_time rt tl = Ret rt'.
Proof.
  revert rt. induction tl as [|sl tl IH]; intros rt Hk; [by eexists|].
  apply Forall_cons in Hk as [[v Hv] Hk]. cbn [for_each].
  rewrite (add_run_time_Some _ _ _ Hv), bind_ret.
  apply IH. eapply Forall_impl; [exact Hk|]. intros s [w Hw]. simpl.
  destruct (decide (Slice.pid sl = Slice.pid s)) as [<-|Hne].
  - by rewrite lookup_insert_eq.
  - by rewrite lookup_insert_ne, Hw.
Qed.

(** The third loop writes one row per process; a later process with the same
    pid overwrites the row. *)
Lemma record_processes_spec (fs : gmap string (option Z)) (ft : gmap string Z)
  (procs : list Process) (acc : tables) :
  Forall (fun p => is_Some (fs !! Process.pid p) /\ is_Some (ft !! Process.pid p))
    procs ->
  exists rs ts ws,
    for_each (record_process fs ft) acc procs = Ret (rs, ts, ws)
    /\ (forall x, rs !! x
          = match owner x procs with
            | Some p => (fun o => match o with
                                  | Some s => s - Process.arrival p
                                  | None => 0
                                  end) <$> fs !! x
            | None => acc.1.1 !! x
            end)
    /\ (forall x, ts !! x
          = match owner x procs with
            | Some p => (fun f => f - Process.arrival p) <$> ft !! x
            | None => acc.1.2 !! x
            end)
    /\ (forall x, ws !! x
          = match owner x procs with
            | Some p => (fun f => f - Process.arrival p - Process.burst p) <$> ft !! x
            | None => acc.2 !! x
            end).
Proof.
  revert acc. induction procs as [|p procs IH]; intros [[rs ts] ws] Hk.
  - exists rs, ts, ws. by split_and!.
  - apply Forall_cons in Hk as [[[o Ho] [f Hf]] Hk]. cbn [for_each].
    rewrite (record_process_Some _ _ _ _ _ _ _ _ Ho Hf), bind_ret.
    edestruct IH as (rs' & ts' & ws' & -> & Hr & Ht & Hw); [exact Hk|].
    exists rs', ts', ws'. split; [done|]. simpl in *.
    split_and!; intros x; rewrite ?Hr, ?Ht, ?Hw, owner_cons;
      (destruct (owner x procs); [done|]);
      (destruct (decide (Process.pid p = x)) as [<-|Hne];
       [rewrite lookup_insert_eq, ?Ho, ?Hf; done|by rewrite lookup_insert_ne]).
Qed.

Lemma scan_timeline_spec (procs : list Process) (tl : list Slice) :
  Forall (fun sl => Slice.pid sl ∈ pids procs) tl ->
  exists fs ft,
    scan_timeline procs tl = Ret (fs, ft)
    /\ (forall x, x ∈ pids procs ->
          fs !! x = Some (first_start_of x tl) /\ ft !! x = Some (finish_of x tl))
    /\ (forall x, x ∉ pids procs -> fs !! x = None).
Proof.
  intros Hk. unfold scan_timeline.
  destruct (record_slices_spec tl (dict_of_pids None procs) (dict_of_pids 0 procs))
    as (fs & ft & -> & Hfs & Hft).
  { eapply Forall_impl; [exact Hk|]. intros sl Hsl. simpl in Hsl.
    rewrite dict_of_pids_lookup, decide_True by done. by eexists. }
  exists fs, ft. split; [done|]. split.
  - intros x Hx. rewrite Hfs, Hft, !dict_of_pids_lookup, !decide_True by done.
    split; [done|]. unfold finish_of. by destruct (last (slices_of x tl)).
  - intros x Hx. by rewrite Hfs, dict_of_pids_lookup, decide_False.
Qed.

(** The calculator returns as soon as every slice bears the pid of an input
    process, and its tables hold the rows of the owners. *)
Lemma compute_metrics_spec (name : string) (procs : list Process)
  (tl : list Slice) :
  Forall (fun sl => Slice.pid sl ∈ pids procs) tl ->
  exists r, compute_metrics name procs tl = Ret r /\ metrics_of name procs tl r.
Proof.
  intros Hk. unfold compute_metrics.
  destruct (scan_timeline_spec procs tl Hk) as (fs & ft & -> & Hin & _).
  rewrite bind_ret.
  destruct (add_run_times_ok tl (dict_of_pids 0 procs)) as [rt ->].
  { eapply Forall_impl; [exact Hk|]. intros sl Hsl. simpl in Hsl.
    rewrite dict_of_pids_lookup, decide_True by done. by eexists. }
  rewrite bind_ret.
  destruct (record_processes_spec fs ft procs (∅, ∅, ∅))
    as (rs & ts & ws & -> & Hr & Ht & Hw).
  { apply Forall_forall. intros p Hp.
    destruct (Hin (Process.pid p)) as [-> ->]; [by apply list_elem_of_fmap_2|].
    by split; eexists. }
  rewrite bind_ret. eexists. split; [done|].
  assert (Hown : forall x p, owner x procs = Some p ->
            Process.pid p = x /\ fs !! x = Some (first_start_of x tl)
            /\ ft !! x = Some (finish_of x tl)).
  { intros x p [Hp <-]%owner_Some. split; [done|].
    apply Hin. by apply list_elem_of_fmap_2. }
  split; simpl; [done|done| | | |done].
  - intros x. rewrite Hr. destruct (owner x procs) as [p|] eqn:Ho; [|done].
    destruct (Hown x p Ho) as (<- & -> & _). done.
  - intros x. rewrite Ht. destruct (owner x procs) as [p|] eqn:Ho; [|done].
    destruct (Hown x p Ho) as (<- & _ & ->). done.
  - intros x. rewrite Hw. destruct (owner x procs) as [p|] eqn:Ho; [|done].
    destruct (Hown x p Ho) as (<- & _ & ->). done.
Qed.

(** A slice whose pid no input process bears makes the first loop fail. *)
Lemma compute_metrics_fail (name : string) (procs : list Process)
  (tl : list Slice) :
  Exists (fun sl => Slice.pid sl ∉ pids procs) tl ->
  compute_metrics name procs tl = Raise KeyError.
Proof.
  intros Hk. unfold compute_metrics, scan_timeline.
  rewrite record_slices_fail; [done|].
  eapply Exists_impl; [exact Hk|]. intros sl Hsl. simpl in Hsl.
  by rewrite dict_of_pids_lookup, decide_False.
Qed.

(** ** From a schedule to the stated properties *)

Lemma schedule_pids (procs : list Process) (tl : list Slice) :
  schedule procs tl -> Forall (fun sl => Slice.pid sl ∈ pids procs) tl.
Proof.
  intros [_ _ Ha]. eapply Forall_impl; [exact Ha|].
  intros sl (p & Hp & <- & _). by apply list_elem_of_fmap_2.
Qed.

Lemma schedule_conserved (procs : list Process) (tl : list Slice) :
  schedule procs tl -> NoDup (pids procs) -> conserved procs tl.
Proof.
  intros [Hc _ _] Hnd p Hp. rewrite Hc. by apply burst_total_unique.
Qed.

Lemma ordered_from_lookup (t0 : Z) (tl : list Slice) (i : nat) (s : Slice) :
  ordered_from t0 tl -> tl !! i = Some s ->
  t0 <= Slice.start s /\ Slice.start s < Slice.end_ s
  /\ ordered_from (Slice.end_ s) (drop (S i) tl).
Proof.
  revert t0 i. induction tl as [|s0 tl IH]; intros t0 i Ho Hi; [done|].
  destruct Ho as (H1 & H2 & H3). destruct i as [|i]; simpl in *.
  - injection Hi as <-. by rewrite drop_0.
  - destruct (IH _ _ H3 Hi) as (? & ? & ?). split_and!; [lia|done..].
Qed.

Lemma ordered_from_well_ordered (t0 : Z) (tl : list Slice) :
  ordered_from t0 tl -> well_ordered tl.
Proof.
  intros Ho.
  assert (Hpair : forall (i j : nat) s s', (i < j)%nat ->
            tl !! i = Some s -> tl !! j = Some s' ->
            Slice.end_ s <= Slice.start s').
  { intros i j s s' Hij Hi Hj.
    destruct (ordered_from_lookup _ _ _ _ Ho Hi) as (_ & _ & Hd).
    assert (Hj' : drop (S i) tl !! (j - S i)%nat = Some s').
    { rewrite lookup_drop. rewrite <- Hj. f_equal. lia. }
    by destruct (ordered_from_lookup _ _ _ _ Hd Hj') as (? & _). }
  split_and!; [|intros s (i & Hi)%list_elem_of_lookup|done].
  - intros i s s' Hi Hj. specialize (Hpair i (S i) s s' (Nat.lt_succ_diag_r i) Hi Hj).
    destruct (ordered_from_lookup _ _ _ _ Ho Hi) as (_ & ? & _). lia.
  - destruct (ordered_from_lookup _ _ _ _ Ho Hi) as (_ & ? & _). lia.
Qed.

Lemma ordered_from_filter (P : Slice -> Prop) `{!forall s, Decision (P s)}
  (t0 : Z) (tl : list Slice) :
  ordered_from t0 tl -> ordered_from t0 (filter P tl).
Proof.
  revert t0. induction tl as [|s tl IH]; intros t0; [done|].
  intros (H1 & H2 & H3). rewrite filter_cons. destruct (decide (P s)).
  - simpl. split_and!; [done..|]. by apply IH.
  - eapply ordered_from_weaken; [|by apply IH]. lia.
Qed.

(** An ordered timeline lasts at least as long as its slices together. *)
Lemma ordered_from_span (t0 : Z) (tl : list Slice) :
  ordered_from t0 tl -> t0 + Zsum (duration <$> tl) <= horizon t0 tl.
Proof.
  revert t0. induction tl as [|s tl IH]; intros t0.
  - intros _. unfold horizon. simpl. lia.
  - intros (H1 & H2 & H3). rewrite horizon_cons. specialize (IH _ H3).
    rewrite fmap_cons. unfold duration at 1. simpl. lia.
Qed.



Lemma slices_of_length (x : string) (tl : list Slice) :
  length (slices_of x tl) = length (filter (fun y => y = x) (Slice.pid <$> tl)).
Proof.
  unfold slices_of. induction tl as [|s tl IH]; [done|].
  rewrite fmap_cons, !filter_cons.
  destruct (decide (Slice.pid s = x)); simpl; by rewrite IH.
Qed.

Lemma procs_of_length (x : string) (procs : list Process) :
  length (procs_of x procs) = length (filter (fun y => y = x) (pids procs)).
Proof.
  unfold procs_of, pids. induction procs as [|p procs IH]; [done|].
  rewrite fmap_cons, !filter_cons.
  destruct (decide (Process.pid p = x)); simpl; by rewrite IH.
Qed.

Lemma permuted_pids_one_slice_each (procs : list Process) (tl : list Slice) :
  Slice.pid <$> tl ≡ₚ pids procs -> NoDup (pids procs) ->
  one_slice_each procs tl.
Proof.
  intros Hperm Hnd p Hp.
  rewrite slices_of_length, Hperm, <- procs_of_length.
  by rewrite procs_of_unique.
Qed.

(** ** The four algorithms *)

Lemma fcfs_result (processes : list Process) :
  exists r, fcfs processes = Ret r
            /\ metrics_of "FCFS" processes (fcfs_timeline processes) r
            /\ Slice.pid <$> timeline r ≡ₚ pids processes.
Proof.
  destruct (compute_metrics_spec "FCFS" processes (fcfs_timeline processes))
    as (r & Hr & Hm).
  { apply Forall_forall. intros sl Hsl.
    apply (list_elem_of_fmap_2 Slice.pid) in Hsl.
    rewrite fcfs_timeline_pids in Hsl. unfold pids in *.
    by rewrite sorted_by_perm in Hsl. }
  exists r. split_and!; [done..|].
  rewrite (met_timeline _ _ _ _ Hm), fcfs_timeline_pids. unfold pids.
  by rewrite sorted_by_perm.
Qed.

Lemma returns_bind {A B} (run : nat -> outcome A) (k : A -> outcome B) (a : A)
  (b : B) :
  returns run a -> k a = Ret b -> returns (fun fuel => run fuel ≫= k) b.
Proof.
  intros [n Hn] Hk. exists n. intros fuel Hf. by rewrite (Hn fuel Hf).
Qed.

Lemma np_result (le : Process -> Process -> bool) (name : string)
  (processes : list Process) :
  bursts_positive processes ->
  exists r,
    returns (fun fuel => np_timeline_of le processes fuel
                         ≫= compute_metrics name processes) r
    /\ schedule processes (timeline r)
    /\ Slice.pid <$> timeline r ≡ₚ pids processes
    /\ metrics_of name processes (timeline r) r.
Proof.
  intros Hb.
  destruct (np_timeline_of_spec le processes Hb) as (tl & Hret & Hs & Hperm).
  destruct (compute_metrics_spec name processes tl (schedule_pids _ _ Hs))
    as (r & Hr & Hm).
  exists r. rewrite (met_timeline _ _ _ _ Hm). split_and!; [|done..].
  by eapply returns_bind.
Qed.

Lemma rr_result (quantum : Z) (processes : list Process) :
  1 <= quantum ->
  exists r,
    returns (fun fuel => round_robin fuel processes quantum) r
    /\ metrics_of ("Round Robin (q=" +:+ pretty quantum +:+ ")") processes
         (timeline r) r
    /\ (bursts_positive processes -> schedule processes (timeline r)).
Proof.
  intros Hq.
  destruct (rr_timeline_of_spec quantum processes Hq) as (tl & Hret & Hpids & Hs).
  destruct (compute_metrics_spec ("Round Robin (q=" +:+ pretty quantum +:+ ")")
              processes tl Hpids) as (r & Hr & Hm).
  exists r. rewrite (met_timeline _ _ _ _ Hm). split_and!; [|done..].
  unfold round_robin. by eapply returns_bind.
Qed.

(** More fuel never changes the result of an algorithm. *)
Lemma np_timeline_of_fuel_mono (le : Process -> Process -> bool)
  (processes : list Process) (fuel fuel' : nat) (tl : list Slice) :
  (fuel <= fuel')%nat ->
  np_timeline_of le processes fuel = Ret tl ->
  np_timeline_of le processes fuel' = Ret tl.
Proof.
  intros Hf. unfold np_timeline_of.
  destruct (while _ _ fuel _) as [st| |] eqn:Hw; [|done..].
  by rewrite (while_fuel_mono _ _ fuel fuel' _ st Hf Hw).
Qed.

Lemma sjf_fuel_mono (processes : list Process) (fuel fuel' : nat) (r : Result) :
  (fuel <= fuel')%nat ->
  sjf_non_preemptive fuel processes = Ret r ->
  sjf_non_preemptive fuel' processes = Ret r.
Proof.
  intros Hf. unfold sjf_non_preemptive.
  destruct (np_timeline_of _ _ fuel) as [tl| |] eqn:Hw; [|done..].
  by rewrite (np_timeline_of_fuel_mono _ _ fuel fuel' tl Hf Hw).
Qed.

Lemma priority_fuel_mono (processes : list Process) (fuel fuel' : nat)
  (r : Result) :
  (fuel <= fuel')%nat ->
  priority_non_preemptive fuel processes = Ret r ->
  priority_non_preemptive fuel' processes = Ret r.
Proof.
  intros Hf. unfold priority_non_preemptive.
  destruct (np_timeline_of _ _ fuel) as [tl| |] eqn:Hw; [|done..].
  by rewrite (np_timeline_of_fuel_mono _ _ fuel fuel' tl Hf Hw).
Qed.

Lemma round_robin_fuel_mono (processes : list Process) (quantum : Z)
  (fuel fuel' : nat) (r : Result) :
  (fuel <= fuel')%nat ->
  round_robin fuel processes quantum = Ret r ->
  round_robin fuel' processes quantum = Ret r.
Proof.
  intros Hf. unfold round_robin, rr_timeline_of.
  destruct (while _ _ fuel _) as [st| |] eqn:Hw; [|done..].
  by rewrite (while_fuel_mono _ _ fuel fuel' _ st Hf Hw).
Qed.

Lemma round_robin_returns (processes : list Process) (quantum : Z)
  (fuel : nat) (r : Result) :
  round_robin fuel processes quantum = Ret r ->
  returns (fun fuel => round_robin fuel processes quantum) r.
Proof.
  intros Hr. exists fuel. intros fuel' Hf. by eapply round_robin_fuel_mono.
Qed.

Lemma sjf_result (processes : list Process) :
  bursts_positive processes ->
  exists r,
    returns (fun fuel => sjf_non_preemptive fuel processes) r
    /\ schedule processes (timeline r)
    /\ Slice.pid <$> timeline r ≡ₚ pids processes
    /\ metrics_of "SJF (non-preemptive)" processes (timeline r) r.
Proof. apply np_result. Qed.

Lemma priority_result (processes : list Process) :
  bursts_positive processes ->
  exists r,
    returns (fun fuel => priority_non_preemptive fuel processes) r
    /\ schedule processes (timeline r)
    /\ Slice.pid <$> timeline r ≡ₚ pids processes
    /\ metrics_of "Priority (non-preemptive)" processes (timeline r) r.
Proof. apply np_result. Qed.

Lemma fcfs_result_schedule (processes : list Process) :
  bursts_positive processes ->
  exists r,
    fcfs processes = Ret r
    /\ schedule processes (timeline r)
    /\ Slice.pid <$> timeline r ≡ₚ pids processes
    /\ metrics_of "FCFS" processes (timeline r) r.
Proof.
  intros Hb. destruct (fcfs_result processes) as (r & Hr & Hm & Hperm).
  exists r. rewrite (met_timeline _ _ _ _ Hm) in *. split_and!; [done| |done..].
  by apply fcfs_timeline_schedule.
Qed.

(** Whatever hold of every schedule with its metrics holds of the result of
    each algorithm. *)
Lemma each_algorithm_schedule (quantum : Z) (processes : list Process)
  (P : Result -> Prop) :
  bursts_positive processes -> 1 <= quantum ->
  (forall name r, schedule processes (timeline r) ->
                  metrics_of name processes (timeline r) r -> P r) ->
  each_algorithm quantum processes P.
Proof.
  intros Hb Hq HP. unfold each_algorithm. split_and!.
  - destruct (fcfs_result_schedule processes Hb) as (r & ? & ? & _ & ?). eauto.
  - destruct (sjf_result processes Hb) as (r & ? & ? & _ & ?). eauto.
  - destruct (priority_result processes Hb) as (r & ? & ? & _ & ?). eauto.
  - destruct (rr_result quantum processes Hq) as (r & ? & ? & ?). eauto.
Qed.

(** ** Concrete inputs and auxiliary facts *)

Lemma seed_bursts_positive : bursts_positive seed.
Proof. repeat constructor; simpl; lia. Defined.

Lemma seed_pids_distinct : NoDup (pids seed).
Proof. apply (bool_decide_unpack (NoDup (pids seed))). vm_compute. exact I. Defined.

(** The conservation law keyed by pid, for inputs in which several processes
    may bear the same pid: the slices bearing a pid add up to the bursts of
    the processes bearing it. *)
Lemma conservation_by_pid (processes : list Process) (quantum : Z) :
  bursts_positive processes -> 1 <= quantum ->
  each_algorithm quantum processes
    (fun r => forall x, cpu_time x (timeline r) = burst_total x processes).
Proof.
  intros Hb Hq. apply each_algorithm_schedule; [done..|].
  intros name r Hs _. apply (sched_conserves _ _ Hs).
Qed.

(** [round_robin] itself does not clamp: with quantum 0 the lone process is
    given empty slices for ever. *)
Lemma round_robin_needs_clamp (fuel : nat) :
  round_robin fuel lone 0 = OutOfFuel.
Proof.
  unfold round_robin, rr_timeline_of.
  assert (H : forall n tl,
            while (rr_cond lone) (rr_body 0 lone) n
              (mk_rr 0 [(Process.mk "A" 0 1 0, 1)] 1 tl) = OutOfFuel).
  { induction n as [|n IH]; intros tl; [done|]. apply IH. }
  change (sorted_by by_arrival lone) with lone.
  destruct fuel as [|fuel]; [done|].
  change (while (rr_cond lone) (rr_body 0 lone) (S fuel) (mk_rr 0 [] 0 []))
    with (while (rr_cond lone) (rr_body 0 lone) fuel
            (mk_rr 0 [(Process.mk "A" 0 1 0, 1)] 1 [Slice.mk "A" 0 0])).
  by rewrite H.
Qed.

Lemma metrics_of_dom (name : string) (procs : list Process) (tl : list Slice)
  (r : Result) :
  metrics_of name procs tl r ->
  dom (waiting_times r) = pid_set procs
  /\ dom (response_times r) = pid_set procs
  /\ dom (turnaround_times r) = pid_set procs.
Proof.
  intros Hm.
  assert (Hown : forall x, is_Some (owner x procs) <-> x ∈ pid_set procs).
  { intros x. unfold pid_set. rewrite elem_of_list_to_set.
    rewrite <- not_eq_None_Some, owner_None. split; [|tauto].
    intros H. by destruct (decide (x ∈ pids procs)). }
  split_and!; apply set_eq; intros x; rewrite elem_of_dom, <- Hown.
  - rewrite (met_waiting _ _ _ _ Hm). apply fmap_is_Some.
  - rewrite (met_response _ _ _ _ Hm). apply fmap_is_Some.
  - rewrite (met_turnaround _ _ _ _ Hm). apply fmap_is_Some.
Qed.

(** On [pair] with quantum 2, B arrives at time 2, exactly when the first
    slice of A ends, and runs before A resumes. *)
Lemma pair_round_robin :
  exists r, returns (fun fuel => round_robin fuel pair 2) r
            /\ timeline r
               = [Slice.mk "A" 0 2; Slice.mk "B" 2 3; Slice.mk "A" 3 5].
Proof.
  destruct (round_robin 3 pair 2) as [r| |] eqn:Hr; [|by vm_compute in Hr..].
  exists r. split; [by eapply round_robin_returns|].
  vm_compute in Hr. by injection Hr as <-.
Qed.

(** ** Round robin with a quantum that no burst exceeds *)

Section large_quantum.
Context (quantum : Z) (procs : list Process).
Hypothesis procs_sorted : StronglySorted arrival_le procs.
Hypothesis bursts_fit :
  Forall (fun p => 1 <= Process.burst p <= quantum) procs.

Lemma rr_fcfs_step (st st' : rr_state) :
  rr_fcfs_inv procs st -> rr_cond procs st = true ->
  rr_body quantum procs st = Ret st' -> rr_fcfs_inv procs st'.
Proof.
  destruct st as [t queue i tl]. unfold rr_fcfs_inv, rr_cond, rr_body. simpl.
  intros (served & waiting & Htake & Hi & -> & Htl & Htf & Hgap & Hwait) Hcond.
  destruct (enqueue_arrived_spec fresh (drop i procs) t i (fresh <$> waiting))
    as (k & -> & Hk & Harr & Hhd).
  rewrite length_drop in Hk. rewrite drop_drop in Hhd.
  rewrite <- fmap_app.
  assert (Htake1 : take (i + k) procs = served ++ waiting ++ take k (drop i procs)).
  { by rewrite <- take_take_drop, Htake, <- app_assoc. }
  assert (Hall : Forall (fun p => Process.arrival p <= t)
                   (waiting ++ take k (drop i procs))) by by apply Forall_app.
  destruct (waiting ++ take k (drop i procs)) as [|p rest] eqn:Hq.
  - (* idle: the clock jumps to the arrival of [procs[i]] *)
    simpl.
    apply app_eq_nil in Hq as [-> Htk]. simpl in Hcond.
    rewrite orb_false_r, bool_decide_eq_true in Hcond.
    destruct (lookup_lt_is_Some_2 procs i Hcond) as [p Hp].
    assert (k = 0)%nat as ->.
    { destruct k; [done|]. rewrite (drop_S _ _ _ Hp) in Htk. done. }
    rewrite Nat.add_0_r in *. unfold index. rewrite Hp. simpl.
    intros [= <-]. simpl. exists served, []. split_and!; try done.
    + specialize (Hhd p). rewrite drop_head_lookup in Hhd.
      specialize (Hhd Hp). lia.
    + intros _. split; [done|].
      pose proof (StronglySorted_drop _ _ i procs_sorted) as Hs.
      rewrite (drop_S _ _ _ Hp) in Hs |- *.
      apply StronglySorted_inv in Hs as [_ Hs].
      constructor; [lia|]. eapply Forall_impl; [exact Hs|].
      unfold arrival_le. intros; simpl in *; lia.
  - (* the head of the queue runs to completion *)
    rewrite fmap_cons. unfold fresh at 1. cbv beta iota zeta.
    assert (Hp : p ∈ procs).
    { apply (subseteq_take (i + k)). rewrite Htake1.
      apply elem_of_app. right. by left. }
    pose proof bursts_fit as Hfit. rewrite Forall_forall in Hfit.
    specialize (Hfit p Hp). simpl in Hfit.
    rewrite Z.min_r by lia. rewrite Z.sub_diag.
    change (0 <? 0) with false. cbv iota.
    destruct (enqueue_arrived_spec fresh (drop (i + k) procs) (t + Process.burst p)
                (i + k) (fresh <$> rest)) as (k2 & -> & Hk2 & Harr2 & Hhd2).
    rewrite length_drop in Hk2. rewrite <- fmap_app.
    intros [= <-]. simpl.
    apply Forall_cons in Hall as [Hpt Hall].
    exists (served ++ [p]), (rest ++ take k2 (drop (i + k) procs)).
    rewrite foldl_app. simpl.
    destruct (foldl fcfs_step (0, []) served) as [tf tl0] eqn:Hf.
    simpl in *. subst tl0.
    assert (Hstart : (if tf <? Process.arrival p then Process.arrival p else tf) = t).
    { assert (Hpa : tf < t -> t <= Process.arrival p).
      { intros Hlt. destruct (Hgap Hlt) as [-> Hlate].
        simpl in Hq. destruct k; [done|].
        assert (Hpi : p ∈ drop i procs).
        { apply (subseteq_take (S k)). rewrite Hq. by left. }
        rewrite Forall_forall in Hlate. by apply (Hlate p Hpi). }
      destruct (Z.ltb_spec tf (Process.arrival p)); lia. }
    rewrite Hstart. simpl. split_and!; try done; try lia.
    + rewrite <- take_take_drop, Htake1, <- !app_assoc. done.
    + apply Forall_app. split; [|done].
      eapply Forall_impl; [exact Hall|]. intros; simpl in *; lia.
Qed.
End large_quantum.

Lemma rr_inv_init (procs : list Process) : rr_inv procs (mk_rr 0 [] 0 []).
Proof.
  unfold rr_inv. simpl. rewrite drop_0. split_and!; [constructor..|lia|].
  intros Hb. split; [by apply partial_init|constructor].
Qed.

Lemma rr_large_quantum_timeline (quantum : Z) (processes : list Process) :
  bursts_positive processes ->
  Forall (fun p => Process.burst p <= quantum) processes ->
  returns (rr_timeline_of quantum processes) (fcfs_timeline processes).
Proof.
  intros Hb Hq. unfold rr_timeline_of, fcfs_timeline.
  pose proof (sorted_by_perm by_arrival processes) as Hperm.
  pose proof (sorted_by_arrival_sorted processes) as Hsorted.
  assert (Hfit : Forall (fun p => 1 <= Process.burst p <= quantum)
                   (sorted_by by_arrival processes)).
  { rewrite Hperm. unfold bursts_positive in Hb.
    rewrite Forall_forall in Hb, Hq. apply Forall_forall. intros p Hp.
    specialize (Hb p Hp). specialize (Hq p Hp). simpl in *. lia. }
  set (procs := sorted_by by_arrival processes) in *.
  destruct procs as [|p0 procs'] eqn:Hprocs.
  { exists 0%nat. intros [|fuel] _; reflexivity. }
  assert (Hquantum : 1 <= quantum).
  { apply Forall_cons in Hfit as [? _]. lia. }
  rewrite <- Hprocs in *. clear Hprocs p0 procs'.
  destruct (while_total (rr_cond procs) (rr_body quantum procs)
              (fun st => rr_inv procs st /\ rr_fcfs_inv procs st)
              (rr_measure procs)) with (s := mk_rr 0 [] 0 [])
    as (st & Hrun & [_ Hinv] & Hexit).
  - intros st [H1 H2] Hc.
    destruct (rr_step quantum procs Hquantum st H1 Hc) as (st' & Hbody & H1' & Hm).
    exists st'. split_and!; [done..| |done].
    by eapply rr_fcfs_step.
  - split; [apply rr_inv_init|]. exists [], []. simpl.
    split_and!; [done|lia|done|done|lia|lia|constructor].
  - eexists. intros fuel Hf. rewrite (Hrun fuel Hf), bind_ret. f_equal.
    destruct Hinv as (served & waiting & Htake & Hi & Hqueue & Htl & _).
    unfold rr_cond in Hexit. apply orb_false_elim in Hexit as [Hlen Hnil].
    apply bool_decide_eq_false in Hlen.
    apply negb_false_iff, bool_decide_eq_true in Hnil.
    rewrite Hnil in Hqueue. symmetry in Hqueue. apply fmap_nil_inv in Hqueue.
    subst waiting. rewrite app_nil_r, take_ge in Htake by lia.
    by rewrite <- Htl, <- Htake.
Qed.

(** The result is the same whatever the name it is computed under. *)
Lemma compute_metrics_rename (name name' : string) (procs : list Process)
  (tl : list Slice) (r : Result) :
  compute_metrics name procs tl = Ret r ->
  compute_metrics name' procs tl
  = Ret {| algorithm := name'; timeline := timeline r;
           waiting_times := waiting_times r;
           response_times := response_times r;
           turnaround_times := turnaround_times r;
           avg_waiting := avg_waiting r; avg_response := avg_response r;
           avg_turnaround := avg_turnaround r |}.
Proof.
  unfold compute_metrics.
  destruct (scan_timeline procs tl) as [[fs ft]| |]; [|done..]. simpl.
  destruct (for_each add_run_time _ tl) as [rt| |]; [|done..]. simpl.
  destruct (for_each (record_process fs ft) _ procs) as [[[rs ts] ws]| |];
    [|done..].
  simpl. by intros [= <-].
Qed.

(** * The specification's claims *)



(** C2. For a process list with bursts of at least 1 and a quantum of at
    least 1, the timeline of each of the four algorithms is sorted ascending
    by start, each slice ends no later than the next one starts, every slice
    has [end > start], and any two slices are disjoint. *)
Theorem ordering (processes : list Process) (quantum : Z) :
  bursts_positive processes -> 1 <= quantum ->
  each_algorithm quantum processes (fun r => well_ordered (timeline r)).
Proof.
  intros Hb Hq. apply each_algorithm_schedule; [done..|].
  intros name r Hs _. eapply ordered_from_well_ordered, (sched_ordered _ _ Hs).
Qed.

Lemma ordering_witness :
  bursts_positive seed /\ 1 <= 2
  /\ each_algorithm 2 seed (fun r => well_ordered (timeline r)).
Proof.
  split; [exact seed_bursts_positive|]. split; [lia|].
  apply (ordering seed 2 seed_bursts_positive). lia.
Defined.

(** C3. For every process list with bursts of at least 1 (sorted by
    (arrival, pid) or not) and every quantum that no burst exceeds, round
    robin returns the timeline of FCFS, slice for slice, hence the same start
    and end times for every process, and the same tables and averages; the
    two results differ in the algorithm name only. *)
Theorem quantum_equivalence (processes : list Process) (quantum : Z) :
  bursts_positive processes ->
  Forall (fun p => Process.burst p <= quantum) processes ->
  exists r_rr r_fcfs,
    returns (fun fuel => round_robin fuel processes quantum) r_rr
    /\ fcfs processes = Ret r_fcfs
    /\ timeline r_rr = timeline r_fcfs
    /\ (forall p, p ∈ processes ->
          slices_of (Process.pid p) (timeline r_rr)
          = slices_of (Process.pid p) (timeline r_fcfs))
    /\ waiting_times r_rr = waiting_times r_fcfs
    /\ response_times r_rr = response_times r_fcfs
    /\ turnaround_times r_rr = turnaround_times r_fcfs
    /\ avg_waiting r_rr = avg_waiting r_fcfs
    /\ avg_response r_rr = avg_response r_fcfs
    /\ avg_turnaround r_rr = avg_turnaround r_fcfs.
Proof.
  intros Hb Hq.
  destruct (fcfs_result processes) as (r & Hr & Hm & _).
  pose proof (rr_large_quantum_timeline quantum processes Hb Hq) as Hret.
  eexists _, r. split_and!; [|done|..].
  - unfold round_robin. eapply returns_bind; [exact Hret|].
    apply (compute_metrics_rename "FCFS"). exact Hr.
  - done.
  - done.
  - done.
  - done.
  - done.
  - done.
  - done.
  - done.
Qed.

Lemma quantum_equivalence_witness :
  bursts_positive seed
  /\ Forall (fun p => Process.burst p <= 7) seed
  /\ exists r_rr r_fcfs,
       returns (fun fuel => round_robin fuel seed 7) r_rr
       /\ fcfs seed = Ret r_fcfs
       /\ timeline r_rr = timeline r_fcfs
       /\ (forall p, p ∈ seed ->
             slices_of (Process.pid p) (timeline r_rr)
             = slices_of (Process.pid p) (timeline r_fcfs))
       /\ waiting_times r_rr = waiting_times r_fcfs
       /\ response_times r_rr = response_times r_fcfs
       /\ turnaround_times r_rr = turnaround_times r_fcfs
       /\ avg_waiting r_rr = avg_waiting r_fcfs
       /\ avg_response r_rr = avg_response r_fcfs
       /\ avg_turnaround r_rr = avg_turnaround r_fcfs.
Proof.
  assert (H : Forall (fun p => Process.burst p <= 7) seed).
  { repeat constructor; simpl; lia. }
  split; [exact seed_bursts_positive|]. split; [exact H|].
  apply (quantum_equivalence seed 7 seed_bursts_positive H).
Defined.

(** C4. On the seed scenario FCFS produces the timeline
    P1[0,7) P2[7,11) P3[11,12) P4[12,16), the waiting times
    P1:0, P2:5, P3:7, P4:7, an average waiting time of 4.75 and an average
    turnaround time of 8.75. *)
Theorem fcfs_seed :
  exists r,
    fcfs seed = Ret r
    /\ timeline r = [ Slice.mk "P1" 0 7; Slice.mk "P2" 7 11;
                      Slice.mk "P3" 11 12; Slice.mk "P4" 12 16 ]
    /\ waiting_times r = {[ "P1" := 0; "P2" := 5; "P3" := 7; "P4" := 7 ]}
    /\ (avg_waiting r == 4.75)%Q
    /\ (avg_turnaround r == 8.75)%Q.
Proof.
  destruct (fcfs seed) as [r| |] eqn:Hr; [|by vm_compute in Hr..].
  exists r. vm_compute in Hr. injection Hr as <-.
  split_and!; [done| |by vm_compute..]; reflexivity.
Qed.

(** C5. Through [run_one], a quantum below 1 is replaced by 1: for every
    process list the call runs [round_robin] with quantum 1, at every fuel,
    and it returns. *)
Theorem quantum_clamped (processes : list Process) (quantum : Z) :
  quantum < 1 ->
  (forall fuel, run_one fuel processes quantum "RR"
                = round_robin fuel processes 1)
  /\ exists r, returns (fun fuel => run_one fuel processes quantum "RR") r
               /\ returns (fun fuel => round_robin fuel processes 1) r.
Proof.
  intros Hq.
  assert (Heq : forall fuel, run_one fuel processes quantum "RR"
                             = round_robin fuel processes 1).
  { intros fuel. unfold run_one. simpl. by rewrite Z.max_l by lia. }
  split; [done|].
  destruct (rr_result 1 processes) as (r & [n Hn] & _); [lia|].
  exists r. split; exists n; intros fuel Hf; [rewrite Heq|]; by apply Hn.
Qed.

Lemma quantum_clamped_witness :
  -3 < 1
  /\ (forall fuel, run_one fuel seed (-3) "RR" = round_robin fuel seed 1)
  /\ exists r, returns (fun fuel => run_one fuel seed (-3) "RR") r
               /\ returns (fun fuel => round_robin fuel seed 1) r.
Proof. split; [lia|]. apply (quantum_clamped seed (-3)). lia. Defined.

(** C6. One execution of the body of the round-robin loop in which a process
    [p] runs: the slice ends at [t = start + min(quantum, rem)]; the new queue
    is the rest of the old one, then every not yet admitted process that has
    arrived by [t] ([arrival <= t], so also those arriving exactly at [t]),
    then, last, [p] if something remains of its burst; no process left pending
    has arrived by [t]. *)
Theorem arrivals_before_preempted (quantum : Z) (processes : list Process)
  (st : rr_state) (i : nat) (p : Process) (rem : Z) (queue : list (Process * Z)) :
  let procs := sorted_by by_arrival processes in
  let use := Z.min quantum rem in
  let t := rr_t st + use in
  enqueue_arrived fresh (drop (rr_i st) procs) (rr_t st) (rr_i st) (rr_queue st)
  = (i, (p, rem) :: queue) ->
  exists arrivals : list Process,
    rr_body quantum procs st
    = Ret (mk_rr t
             (queue ++ (fresh <$> arrivals)
              ++ (if 0 <? rem - use then [(p, rem - use)] else []))
             (i + length arrivals)
             (rr_timeline st ++ [Slice.mk (Process.pid p) (rr_t st) t]))
    /\ drop i procs = arrivals ++ drop (i + length arrivals) procs
    /\ Forall (fun q => Process.arrival q <= t) arrivals
    /\ Forall (fun q => t < Process.arrival q) (drop (i + length arrivals) procs).
Proof.
  intros procs use t Hfirst.
  destruct (enqueue_arrived_spec fresh (drop i procs) t i queue)
    as (k & Hsecond & Hk & Harr & Hhd).
  exists (take k (drop i procs)).
  rewrite length_take, Nat.min_l by done. rewrite drop_drop in Hhd.
  split_and!.
  - unfold rr_body. rewrite Hfirst. fold use. fold t. rewrite Hsecond.
    destruct (0 <? rem - use); [by rewrite <- app_assoc|by rewrite app_nil_r].
  - by rewrite <- (drop_drop procs k i), take_drop.
  - done.
  - apply sorted_head_late; [|done].
    apply StronglySorted_drop, sorted_by_arrival_sorted.
Qed.

Lemma arrivals_before_preempted_witness :
  enqueue_arrived fresh (drop 0 (sorted_by by_arrival pair)) 0 0 []
  = (1%nat, [(Process.mk "A" 0 4 0, 4)])
  /\ exists arrivals : list Process,
       rr_body 2 (sorted_by by_arrival pair) (mk_rr 0 [] 0 [])
       = Ret (mk_rr 2
                ([] ++ (fresh <$> arrivals)
                 ++ (if 0 <? 4 - 2 then [(Process.mk "A" 0 4 0, 4 - 2)] else []))
                (1 + length arrivals)
                ([] ++ [Slice.mk "A" 0 2]))
       /\ drop 1 (sorted_by by_arrival pair)
          = arrivals ++ drop (1 + length arrivals) (sorted_by by_arrival pair)
       /\ Forall (fun q => Process.arrival q <= 2) arrivals
       /\ Forall (fun q => 2 < Process.arrival q)
            (drop (1 + length arrivals) (sorted_by by_arrival pair)).
Proof.
  split; [reflexivity|].
  apply (arrivals_before_preempted 2 pair (mk_rr 0 [] 0 []) 1
           (Process.mk "A" 0 4 0) 4 []).
  reflexivity.
Defined.



(** C8, as stated: a name outside FCFS, SJF, PRIORITY, ROUND_ROBIN gives the
    FCFS result.  The tag that [run_one] tests for round robin is RR, which is
    outside that set and does not give the FCFS result. *)
Lemma fallback_misses_RR :
  ~ (forall (fuel : nat) (procs : list Process) (quantum : Z) (name : string),
       name ∉ ["FCFS"; "SJF"; "PRIORITY"; "ROUND_ROBIN"]%string ->
       run_one fuel procs quantum name = fcfs procs).
Proof.
  intros H. specialize (H 0%nat [] 2 "RR").
  assert (Hne : run_one 0 [] 2 "RR" <> fcfs []) by (vm_compute; discriminate).
  apply Hne, H. apply not_elem_of_cons; split; [done|].
  apply not_elem_of_cons; split; [done|].
  apply not_elem_of_cons; split; [done|].
  apply not_elem_of_cons; split; [done|]. apply not_elem_of_nil.
Qed.

(** C8, amended. For every process list, quantum and fuel, [run_one] called
    with a name outside FCFS, SJF, PRIORITY, RR is [fcfs] on the same
    processes, and [fcfs] returns a result: the call does not fail. *)
Theorem fallback_to_fcfs (fuel : nat) (procs : list Process) (quantum : Z)
  (name : string) :
  name ∉ ["FCFS"; "SJF"; "PRIORITY"; "RR"]%string ->
  run_one fuel procs quantum name = fcfs procs
  /\ exists r, fcfs procs = Ret r.
Proof.
  intros Hn. split.
  - unfold run_one.
    destruct (String.eqb_spec name "FCFS"); [done|].
    destruct (String.eqb_spec name "SJF") as [->|_]; [set_solver|].
    destruct (String.eqb_spec name "PRIORITY") as [->|_]; [set_solver|].
    destruct (String.eqb_spec name "RR") as [->|_]; [set_solver|]. done.
  - destruct (fcfs_result procs) as (r & Hr & _). by exists r.
Qed.

Lemma fallback_to_fcfs_witness :
  (("ROUND_ROBIN" : string) ∉ ["FCFS"; "SJF"; "PRIORITY"; "RR"]%string)
  /\ run_one 0 seed 2 "ROUND_ROBIN" = fcfs seed
  /\ exists r, fcfs seed = Ret r.
Proof.
  assert (H : ("ROUND_ROBIN" : string) ∉ ["FCFS"; "SJF"; "PRIORITY"; "RR"]%string).
  { apply (bool_decide_unpack _). vm_compute. exact I. }
  split; [exact H|]. apply (fallback_to_fcfs 0 seed 2 "ROUND_ROBIN" H).
Defined.

(** C9. On the empty process list each of the four algorithms returns, for
    every quantum and without executing any loop body, a result with an empty
    timeline, empty tables and the three averages equal to 0; the divisor of
    the averages is [max(1, 0) = 1]. *)
Theorem empty_input (quantum : Z) (fuel : nat) :
  fcfs [] = Ret (empty_result "FCFS")
  /\ sjf_non_preemptive fuel [] = Ret (empty_result "SJF (non-preemptive)")
  /\ priority_non_preemptive fuel []
     = Ret (empty_result "Priority (non-preemptive)")
  /\ round_robin fuel [] quantum
     = Ret (empty_result ("Round Robin (q=" +:+ pretty quantum +:+ ")"))
  /\ Z.max 1 (Z.of_nat (length (@nil Process))) = 1.
Proof. destruct fuel; by split_and!. Qed.

(** C10. [compute_metrics] raises [KeyError] when some slice bears a pid that
    no input process bears.  When every slice pid is the pid of an input
    process it returns, the key set of each of the three tables is the set of
    input pids, and a process without any slice has [first_start] [None] and
    [finish_time] 0 after the scan, hence response time 0 and a turnaround
    computed from finish time 0. *)
Theorem metrics_keys (name : string) (procs : list Process) (tl : list Slice) :
  (Exists (fun sl => Slice.pid sl ∉ pids procs) tl ->
   compute_metrics name procs tl = Raise KeyError)
  /\ (Forall (fun sl => Slice.pid sl ∈ pids procs) tl ->
      exists r fs ft,
        compute_metrics name procs tl = Ret r
        /\ scan_timeline procs tl = Ret (fs, ft)
        /\ dom (waiting_times r) = pid_set procs
        /\ dom (response_times r) = pid_set procs
        /\ dom (turnaround_times r) = pid_set procs
        /\ forall p, p ∈ procs -> slices_of (Process.pid p) tl = [] ->
             fs !! Process.pid p = Some None
             /\ ft !! Process.pid p = Some 0
             /\ response_times r !! Process.pid p = Some 0
             /\ turnaround_times r !! Process.pid p
                = (fun q => 0 - Process.arrival q) <$> owner (Process.pid p) procs
             /\ is_Some (waiting_times r !! Process.pid p)).
Proof.
  split; [apply compute_metrics_fail|]. intros Hk.
  destruct (compute_metrics_spec name procs tl Hk) as (r & Hr & Hm).
  destruct (scan_timeline_spec procs tl Hk) as (fs & ft & Hscan & Hin & _).
  destruct (metrics_of_dom _ _ _ _ Hm) as (Hw & Hrs & Ht).
  exists r, fs, ft. split_and!; [done..|].
  intros p Hp Hnone.
  assert (Hx : Process.pid p ∈ pids procs) by by apply list_elem_of_fmap_2.
  destruct (Hin _ Hx) as [Hfs Hft].
  unfold first_start_of in Hfs. unfold finish_of in Hft.
  rewrite Hnone in Hfs, Hft. simpl in Hfs, Hft.
  destruct (owner (Process.pid p) procs) as [q|] eqn:Hq;
    [|by apply owner_None in Hq].
  apply owner_Some in Hq as Hq'. destruct Hq' as [_ Hqp].
  rewrite (met_response _ _ _ _ Hm), (met_turnaround _ _ _ _ Hm),
    (met_waiting _ _ _ _ Hm), Hq. simpl.
  unfold response_of, turnaround_of, first_start_of, finish_of.
  rewrite Hqp, Hnone. simpl. split_and!; [done..|]. by eexists.
Qed.

Lemma metrics_keys_witness :
  Exists (fun sl => Slice.pid sl ∉ pids seed) stray
  /\ compute_metrics "FCFS" seed stray = Raise KeyError
  /\ Forall (fun sl => Slice.pid sl ∈ pids seed) only_P1
  /\ exists r fs ft,
       compute_metrics "FCFS" seed only_P1 = Ret r
       /\ scan_timeline seed only_P1 = Ret (fs, ft)
       /\ dom (waiting_times r) = pid_set seed
       /\ dom (response_times r) = pid_set seed
       /\ dom (turnaround_times r) = pid_set seed
       /\ forall p, p ∈ seed -> slices_of (Process.pid p) only_P1 = [] ->
            fs !! Process.pid p = Some None
            /\ ft !! Process.pid p = Some 0
            /\ response_times r !! Process.pid p = Some 0
            /\ turnaround_times r !! Process.pid p
               = (fun q => 0 - Process.arrival q) <$> owner (Process.pid p) seed
            /\ is_Some (waiting_times r !! Process.pid p).
Proof.
  assert (H1 : Exists (fun sl => Slice.pid sl ∉ pids seed) stray).
  { apply Exists_cons_tl, Exists_cons_hd. simpl.
    apply (bool_decide_unpack _). vm_compute. exact I. }
  assert (H2 : Forall (fun sl => Slice.pid sl ∈ pids seed) only_P1).
  { repeat constructor. }
  destruct (metrics_keys "FCFS" seed stray) as [Hfail _].
  destruct (metrics_keys "FCFS" seed only_P1) as [_ Hok].
  split_and!; [exact H1|exact (Hfail H1)|exact H2|exact (Hok H2)].
Defined.

(** * Further properties of the code *)

(** ** Loops: invariants at exit and loops that never exit *)

Lemma while_invariant {S} (cond : S -> bool) (body : S -> outcome S)
  (Inv : S -> Prop) :
  (forall s s', Inv s -> cond s = true -> body s = Ret s' -> Inv s') ->
  forall fuel s s', Inv s -> while cond body fuel s = Ret s' ->
                    Inv s' /\ cond s' = false.
Proof.
  intros Hstep fuel. induction fuel as [|fuel IH]; intros s s' Hs; simpl.
  - destruct (cond s) eqn:Hc; [done|]. by intros [= <-].
  - destruct (cond s) eqn:Hc; [|by intros [= <-]].
    destruct (body s) as [s1| |] eqn:Hb; simpl; [|done..].
    apply IH. by eapply Hstep.
Qed.

Lemma while_diverges {S} (cond : S -> bool) (body : S -> outcome S)
  (Inv : S -> Prop) :
  (forall s, Inv s -> cond s = true /\ exists s', body s = Ret s' /\ Inv s') ->
  forall fuel s, Inv s -> while cond body fuel s = OutOfFuel.
Proof.
  intros Hstep fuel. induction fuel as [|fuel IH]; intros s Hs; simpl;
    destruct (Hstep s Hs) as (-> & s' & Hb & Hs'); [done|].
  rewrite Hb. simpl. by apply IH.
Qed.

(** ** One execution of the body of the round-robin loop, in full *)

Lemma rr_body_cases (quantum : Z) (procs : list Process) (st : rr_state) :
  rr_cond procs st = true ->
  (exists p,
     rr_queue st = [] /\ procs !! rr_i st = Some p
     /\ rr_t st < Process.arrival p
     /\ rr_body quantum procs st
        = Ret (mk_rr (Process.arrival p) [] (rr_i st) (rr_timeline st)))
  \/ (exists (k k2 : nat) p rem rest,
        let use := Z.min quantum rem in
        let arrived := take k (drop (rr_i st) procs) in
        let arrived2 := take k2 (drop (rr_i st + k) procs) in
        rr_queue st ++ (fresh <$> arrived) = (p, rem) :: rest
        /\ Forall (fun q => Process.arrival q <= rr_t st) arrived
        /\ Forall (fun q => Process.arrival q <= rr_t st + use) arrived2
        /\ (forall q, head (drop (rr_i st + k + k2) procs) = Some q ->
                      rr_t st + use < Process.arrival q)
        /\ (rr_i st + k + k2 <= Nat.max (rr_i st) (length procs))%nat
        /\ rr_body quantum procs st
           = Ret (mk_rr (rr_t st + use)
                    ((rest ++ (fresh <$> arrived2))
                     ++ (if 0 <? rem - use then [(p, rem - use)] else []))
                    (rr_i st + k + k2)
                    (rr_timeline st
                     ++ [Slice.mk (Process.pid p) (rr_t st) (rr_t st + use)]))).
Proof.
  destruct st as [t queue i tl]. unfold rr_cond, rr_body. simpl. intros Hcond.
  destruct (enqueue_arrived_spec fresh (drop i procs) t i queue)
    as (k & -> & Hk & Harr & Hhd).
  rewrite length_drop in Hk.
  destruct (queue ++ (fresh <$> take k (drop i procs))) as [|[p rem] rest] eqn:Hq.
  - left. apply app_eq_nil in Hq as [-> Htk]. apply fmap_nil_inv in Htk.
    simpl in Hcond. rewrite orb_false_r, bool_decide_eq_true in Hcond.
    destruct (lookup_lt_is_Some_2 procs i Hcond) as [p Hp].
    assert (k = 0)%nat as ->.
    { destruct k; [done|]. by rewrite (drop_S _ _ _ Hp) in Htk. }
    rewrite Nat.add_0_r. exists p.
    rewrite drop_0, drop_head_lookup in Hhd. specialize (Hhd p Hp).
    unfold index. rewrite Hp. by split_and!.
  - right.
    destruct (enqueue_arrived_spec fresh (drop (i + k) procs)
                (t + Z.min quantum rem) (i + k) rest)
      as (k2 & -> & Hk2 & Harr2 & Hhd2).
    rewrite length_drop in Hk2. rewrite drop_drop in Hhd2.
    exists k, k2, p, rem, rest. cbv zeta.
    split_and!; [done..|lia|].
    destruct (0 <? rem - Z.min quantum rem); by rewrite ?app_nil_r.
Qed.

(** What [round_robin] returns comes from an exit of its loop. *)
Lemma compute_metrics_timeline (name : string) (procs : list Process)
  (tl : list Slice) (r : Result) :
  compute_metrics name procs tl = Ret r -> timeline r = tl.
Proof.
  unfold compute_metrics.
  destruct (scan_timeline procs tl) as [[fs ft]| |]; [|done..]. simpl.
  destruct (for_each add_run_time _ tl) as [rt| |]; [|done..]. simpl.
  destruct (for_each (record_process fs ft) _ procs) as [[[rs ts] ws]| |];
    [|done..].
  simpl. by intros [= <-].
Qed.

Lemma round_robin_exit (Inv : rr_state -> Prop) (quantum : Z)
  (processes : list Process) (fuel : nat) (r : Result) :
  let procs := sorted_by by_arrival processes in
  Inv (mk_rr 0 [] 0 []) ->
  (forall st st', Inv st -> rr_cond procs st = true ->
                  rr_body quantum procs st = Ret st' -> Inv st') ->
  round_robin fuel processes quantum = Ret r ->
  exists st, Inv st /\ rr_cond procs st = false /\ rr_timeline st = timeline r.
Proof.
  intros procs Hinit Hstep. unfold round_robin, rr_timeline_of. fold procs.
  destruct (while _ _ fuel _) as [st| |] eqn:Hw; [|done..]. simpl.
  intros Hr%compute_metrics_timeline.
  destruct (while_invariant _ _ Inv Hstep fuel _ _ Hinit Hw). by exists st.
Qed.

(** The same execution seen on the unfinished entries: either the clock
    jumps and nothing else changes, or the head entry [(p, rem)] leaves the
    unfinished entries, runs for [min(quantum, rem)], and comes back with what
    remains if that is positive. *)
Lemma rr_body_rest (quantum : Z) (procs : list Process) (st : rr_state) :
  (rr_i st <= length procs)%nat -> rr_cond procs st = true ->
  exists st',
    rr_body quantum procs st = Ret st'
    /\ (rr_i st' <= length procs)%nat
    /\ ((rr_timeline st' = rr_timeline st
         /\ rr_rest procs st' = rr_rest procs st
         /\ rr_t st < rr_t st'
         /\ rr_queue st = []
         /\ exists p, procs !! rr_i st = Some p
                      /\ rr_t st' = Process.arrival p)
        \/ (exists p rem R,
              let use := Z.min quantum rem in
              rr_rest procs st ≡ₚ (p, rem) :: R
              /\ rr_rest procs st'
                 ≡ₚ (if 0 <? rem - use then [(p, rem - use)] else []) ++ R
              /\ rr_timeline st'
                 = rr_timeline st
                   ++ [Slice.mk (Process.pid p) (rr_t st) (rr_t st + use)]
              /\ rr_t st' = rr_t st + use)).
Proof.
  intros Hi Hcond.
  destruct (rr_body_cases quantum procs st Hcond)
    as [(p & Hq & Hp & Hlt & ->)
       |(k & k2 & p & rem & rest & Hhead & _ & _ & _ & Hi' & ->)].
  - eexists. split; [done|]. simpl. split; [done|]. left.
    unfold rr_rest. simpl. rewrite Hq. split_and!; [done..|]. by exists p.
  - eexists. split; [done|]. simpl. split; [lia|]. right.
    exists p, rem, (rest ++ (fresh <$> drop (rr_i st + k) procs)).
    cbv zeta. unfold rr_rest. simpl. split_and!; [| |done..].
    + rewrite <- (take_drop k (drop (rr_i st) procs)) at 1.
      rewrite drop_drop, fmap_app, app_assoc, Hhead. done.
    + rewrite <- (take_drop k2 (drop (rr_i st + k) procs)) at 2.
      rewrite drop_drop, fmap_app.
      set (back := if 0 <? rem - Z.min quantum rem then _ else _).
      rewrite (Permutation_app_comm _ back), <- !app_assoc.
      done.
Qed.

Lemma rr_rest_cond (procs : list Process) (st : rr_state) :
  (rr_i st <= length procs)%nat -> rr_rest procs st <> [] ->
  rr_cond procs st = true.
Proof.
  intros Hi Hne. unfold rr_cond, rr_rest in *.
  destruct (decide (rr_i st < length procs)%nat) as [Hlt|Hge].
  - by rewrite bool_decide_true.
  - rewrite drop_ge, app_nil_r in Hne by lia.
    rewrite (bool_decide_false (rr_queue st = [])) by done.
    by rewrite orb_true_r.
Qed.

(** ** Round robin without a positive quantum *)

Lemma rr_busy_step (quantum : Z) (procs : list Process) (st : rr_state) :
  quantum <= 0 -> rr_busy procs st ->
  rr_cond procs st = true
  /\ exists st', rr_body quantum procs st = Ret st' /\ rr_busy procs st'.
Proof.
  intros Hq [Hi Hex].
  assert (Hcond : rr_cond procs st = true).
  { apply rr_rest_cond; [done|]. intros Hnil. rewrite Hnil in Hex.
    by apply Exists_nil in Hex. }
  split; [done|].
  destruct (rr_body_rest quantum procs st Hi Hcond)
    as (st' & Hbody & Hi' & [(_ & Hrest & _)|(p & rem & R & Hr & Hr' & _)]).
  - exists st'. split; [done|]. split; [done|]. by rewrite Hrest.
  - exists st'. split; [done|]. split; [done|].
    rewrite Hr'. rewrite Hr in Hex. apply Exists_cons in Hex as [Hp|HR].
    + simpl in Hp. apply Exists_app. left.
      rewrite Z.min_l by lia.
      destruct (Z.ltb_spec 0 (rem - quantum)); [|lia].
      apply Exists_cons_hd. simpl. lia.
    + apply Exists_app. by right.
Qed.

(** X1. [round_robin] called with a quantum of 0 or less never returns as soon as
    one process has a positive burst: whatever the fuel, the loop is still
    running when it is spent. *)
Theorem round_robin_diverges (processes : list Process) (quantum : Z)
  (fuel : nat) :
  quantum <= 0 -> Exists (fun p => 0 < Process.burst p) processes ->
  round_robin fuel processes quantum = OutOfFuel.
Proof.
  intros Hq Hex. unfold round_robin, rr_timeline_of.
  rewrite (while_diverges _ _ (rr_busy (sorted_by by_arrival processes)));
    [done|intros st; by apply rr_busy_step|].
  split; [simpl; lia|]. unfold rr_rest. simpl. rewrite drop_0.
  rewrite <- (sorted_by_perm by_arrival processes) in Hex.
  apply Exists_fmap. eapply Exists_impl; [exact Hex|]. done.
Qed.

Lemma round_robin_diverges_witness :
  0 <= 0 /\ Exists (fun p => 0 < Process.burst p) seed
  /\ round_robin 1000 seed 0 = OutOfFuel.
Proof.
  assert (H : Exists (fun p => 0 < Process.burst p) seed).
  { apply Exists_cons_hd. simpl. lia. }
  split; [lia|]. split; [exact H|].
  apply (round_robin_diverges seed 0 1000); [lia|exact H].
Defined.

(** ** Round robin: slices and quanta *)

(** X2. No slice of round robin is longer than the quantum, for every process
    list; [round_robin] returns when the quantum is at least 1. *)
Theorem round_robin_slices_within_quantum (processes : list Process)
  (quantum : Z) :
  1 <= quantum ->
  exists r, returns (fun fuel => round_robin fuel processes quantum) r
            /\ Forall (fun sl => duration sl <= quantum) (timeline r).
Proof.
  intros Hq. destruct (rr_result quantum processes Hq) as (r & Hret & _).
  exists r. split; [done|]. destruct Hret as [n Hn].
  set (procs := sorted_by by_arrival processes).
  destruct (round_robin_exit
              (fun st => (rr_i st <= length procs)%nat
                         /\ Forall (fun sl => duration sl <= quantum)
                              (rr_timeline st))
              quantum processes n r) as (st & [_ Hall] & _ & <-);
    [split; [simpl; lia|constructor]| |by apply Hn|done].
  intros st st' [Hi Hall] Hcond Hbody. fold procs in Hcond, Hbody.
  destruct (rr_body_rest quantum procs st Hi Hcond)
    as (st1 & Hbody1 & Hi' & Hcases).
  rewrite Hbody in Hbody1. injection Hbody1 as <-. split; [done|].
  destruct Hcases as [(-> & _)|(p & rem & R & _ & _ & -> & _)]; [done|].
  apply Forall_app. split; [done|]. repeat constructor.
  unfold duration. simpl. lia.
Qed.

Lemma round_robin_slices_within_quantum_witness :
  1 <= 2
  /\ exists r, returns (fun fuel => round_robin fuel seed 2) r
               /\ Forall (fun sl => duration sl <= 2) (timeline r).
Proof.
  split; [lia|]. apply (round_robin_slices_within_quantum seed 2). lia.
Defined.

Lemma durations_of_snoc (x : string) (tl : list Slice) (sl : Slice) :
  durations_of x (tl ++ [sl])
  = durations_of x tl ++ (if decide (Slice.pid sl = x) then [duration sl] else []).
Proof.
  unfold durations_of, slices_of. rewrite filter_app, fmap_app. f_equal.
  rewrite filter_cons, filter_nil. by destruct (decide (Slice.pid sl = x)).
Qed.

Lemma same_pid_same_process (procs : list Process) (p q : Process) :
  NoDup (pids procs) -> p ∈ procs -> q ∈ procs ->
  Process.pid p = Process.pid q -> p = q.
Proof.
  intros Hnd Hp Hq Heq.
  pose proof (owner_unique procs p Hnd Hp) as H1.
  pose proof (owner_unique procs q Hnd Hq) as H2.
  rewrite Heq, H2 in H1. by injection H1.
Qed.

Section quanta.
Context (quantum : Z) (procs : list Process).
Hypothesis quantum_pos : 1 <= quantum.
Hypothesis pids_distinct : NoDup (pids procs).

Lemma rr_quanta_step (st st' : rr_state) :
  rr_quanta_inv quantum procs st -> rr_cond procs st = true ->
  rr_body quantum procs st = Ret st' -> rr_quanta_inv quantum procs st'.
Proof.
  intros (Hi & Hnd & Hall & Hfin) Hcond Hbody.
  destruct (rr_body_rest quantum procs st Hi Hcond)
    as (st1 & Hbody1 & Hi' & Hcases).
  rewrite Hbody in Hbody1. injection Hbody1 as <-.
  unfold rr_quanta_inv.
  destruct Hcases as [(Htl & Hrest & _)|(p & rem & R & Hr & Hr' & Htl & _)].
  { rewrite Htl, Hrest. done. }
  cbv zeta in Hr'. set (use := Z.min quantum rem) in *.
  set (back := if 0 <? rem - use then [(p, rem - use)] else []) in *.
  rewrite Hr in Hnd, Hall. rewrite fmap_cons in Hnd. simpl in Hnd.
  apply NoDup_cons in Hnd as [Hp_fresh HndR].
  apply Forall_cons in Hall as [(Hp & Hrem & n & Hdur & Hsum) HallR].
  simpl in Hp, Hrem, Hdur, Hsum.
  assert (Hother : forall x, x <> Process.pid p ->
            durations_of x (rr_timeline st') = durations_of x (rr_timeline st)).
  { intros x Hx. rewrite Htl, durations_of_snoc. simpl.
    rewrite decide_False by done. by rewrite app_nil_r. }
  assert (Hself : durations_of (Process.pid p) (rr_timeline st')
                  = full_quanta quantum n ++ [use]).
  { rewrite Htl, durations_of_snoc. simpl. rewrite decide_True by done.
    rewrite Hdur. unfold duration. simpl. do 2 f_equal. lia. }
  assert (HR_pid : forall e, e ∈ R -> Process.pid e.1 <> Process.pid p).
  { intros e He Heq. apply Hp_fresh. rewrite <- Heq.
    by apply (list_elem_of_fmap_2 (fun e : Process * Z => Process.pid e.1)). }
  split_and!.
  - done.
  - rewrite Hr', fmap_app. unfold back.
    destruct (0 <? rem - use); simpl; [|done]. by apply NoDup_cons.
  - rewrite Hr'. apply Forall_app. split.
    + unfold back. destruct (Z.ltb_spec 0 (rem - use)) as [Hpos|Hle];
        [|constructor].
      repeat constructor; simpl; [done..|].
      exists (S n). rewrite Hself. unfold full_quanta.
      assert (use = quantum) as -> by (unfold use in *; lia).
      split; [by rewrite replicate_S_end|lia].
    + rewrite Forall_forall in HallR. apply Forall_forall.
      intros e He. destruct (HallR e He) as (? & ? & m & Hd & Hs).
      split_and!; [done..|]. exists m. by rewrite Hother by by apply HR_pid.
  - intros p' Hp' Hout. rewrite Hr', fmap_app in Hout.
    apply not_elem_of_app in Hout as [Hback HoutR].
    destruct (decide (Process.pid p' = Process.pid p)) as [Heq|Hne].
    + assert (p' = p) as -> by by eapply same_pid_same_process.
      unfold back in Hback.
      destruct (Z.ltb_spec 0 (rem - use)) as [Hpos|Hle].
      { exfalso. apply Hback. simpl. by left. }
      exists n, use. rewrite Hself. unfold use in *. split_and!; [done|lia..].
    + rewrite Hother by done. apply Hfin; [done|].
      rewrite Hr, fmap_cons. simpl.
      apply not_elem_of_cons. split; [congruence|done].
Qed.
End quanta.

(** X3. Round robin gives every process full quanta until its burst is
    exhausted: for pairwise distinct pids, bursts of at least 1 and a quantum
    of at least 1, the slices of a process last [quantum] each, except the
    last one, which takes what remains ([0 < last <= quantum]); so a process
    of burst [b] gets [ceil(b / quantum)] slices. *)
Theorem round_robin_quanta (processes : list Process) (quantum : Z) :
  NoDup (pids processes) -> bursts_positive processes -> 1 <= quantum ->
  exists r,
    returns (fun fuel => round_robin fuel processes quantum) r
    /\ forall p, p ∈ processes ->
         exists (n : nat) (last : Z),
           durations_of (Process.pid p) (timeline r)
           = full_quanta quantum n ++ [last]
           /\ 0 < last <= quantum
           /\ Z.of_nat n * quantum + last = Process.burst p.
Proof.
  intros Hnd Hb Hq. destruct (rr_result quantum processes Hq) as (r & Hret & _).
  exists r. split; [done|]. destruct Hret as [fuel Hfuel].
  pose proof (sorted_by_perm by_arrival processes) as Hperm.
  set (procs := sorted_by by_arrival processes) in *.
  assert (Hnd' : NoDup (pids procs)) by (unfold pids; by rewrite Hperm).
  destruct (round_robin_exit (rr_quanta_inv quantum procs) quantum processes
              fuel r) as (st & (Hi & _ & _ & Hfin) & Hexit & <-).
  - unfold rr_quanta_inv, rr_rest. simpl. rewrite drop_0. split_and!.
    + lia.
    + rewrite <- list_fmap_compose. exact Hnd'.
    + apply Forall_fmap, Forall_forall. intros p Hp. simpl.
      unfold bursts_positive in Hb. rewrite Forall_forall in Hb.
      rewrite Hperm in Hp. specialize (Hb p Hp). simpl in Hb.
      split_and!; [by rewrite Hperm|lia|]. by exists 0%nat.
    + intros p Hp Hout. exfalso. apply Hout.
      rewrite <- list_fmap_compose. simpl. by rewrite list_fmap_id.
  - intros st st'. by apply rr_quanta_step.
  - by apply Hfuel.
  - intros p Hp. apply Hfin; [by rewrite Hperm|].
    unfold rr_cond in Hexit. apply orb_false_elim in Hexit as [Hlen Hnil].
    apply bool_decide_eq_false in Hlen.
    apply negb_false_iff, bool_decide_eq_true in Hnil.
    unfold rr_rest. rewrite Hnil. fold procs in Hlen.
    rewrite drop_ge by lia. apply not_elem_of_nil.
Qed.

Lemma round_robin_quanta_witness :
  NoDup (pids seed) /\ bursts_positive seed /\ 1 <= 2
  /\ exists r,
       returns (fun fuel => round_robin fuel seed 2) r
       /\ forall p, p ∈ seed ->
            exists (n : nat) (last : Z),
              durations_of (Process.pid p) (timeline r)
              = full_quanta 2 n ++ [last]
              /\ 0 < last <= 2
              /\ Z.of_nat n * 2 + last = Process.burst p.
Proof.
  split; [exact seed_pids_distinct|]. split; [exact seed_bursts_positive|].
  split; [lia|].
  apply (round_robin_quanta seed 2 seed_pids_distinct seed_bursts_positive).
  lia.
Defined.

(** ** One execution of the body of the non-preemptive loop, in full *)

Lemma np_body_cases (le : Process -> Process -> bool) (procs : list Process)
  (st : np_state) :
  (np_i st <= length procs)%nat -> np_cond procs st = true ->
  exists st',
    np_body le procs st = Ret st'
    /\ (np_i st' <= length procs)%nat
    /\ (np_measure procs st' < np_measure procs st)%nat
    /\ ((exists p,
           np_ready st = [] /\ procs !! np_i st = Some p
           /\ np_t st < Process.arrival p
           /\ st' = mk_np (Process.arrival p) [] (np_i st) (np_timeline st))
        \/ (exists (k : nat) p,
              let arrived := take k (drop (np_i st) procs) in
              sorted_by le (np_ready st ++ arrived) = p :: np_ready st'
              /\ Forall (fun q => Process.arrival q <= np_t st) arrived
              /\ (forall q, head (drop (np_i st + k) procs) = Some q ->
                            np_t st < Process.arrival q)
              /\ np_i st' = (np_i st + k)%nat
              /\ np_t st' = np_t st + Process.burst p
              /\ np_timeline st'
                 = np_timeline st
                   ++ [Slice.mk (Process.pid p) (np_t st)
                         (np_t st + Process.burst p)])).
Proof.
  destruct st as [t ready i tl]. unfold np_cond, np_measure, np_body. simpl.
  intros Hi Hcond.
  destruct (enqueue_arrived_spec id (drop i procs) t i ready)
    as (k & -> & Hk & Harr & Hhd).
  rewrite list_fmap_id. simpl. rewrite length_drop in Hk.
  rewrite drop_drop in Hhd.
  destruct (ready ++ take k (drop i procs)) as [|r rs] eqn:Hq.
  - apply app_eq_nil in Hq as [-> Htk]. simpl in *.
    rewrite orb_false_r, bool_decide_eq_true in Hcond.
    destruct (lookup_lt_is_Some_2 procs i Hcond) as [p Hp].
    assert (k = 0)%nat as ->.
    { destruct k; [done|]. by rewrite (drop_S _ _ _ Hp) in Htk. }
    rewrite Nat.add_0_r in *. rewrite drop_head_lookup in Hhd.
    specialize (Hhd p Hp). unfold index. rewrite Hp. simpl.
    eexists. split; [done|]. simpl. split_and!; [done| |].
    + rewrite (drop_S _ _ _ Hp). rewrite enqueue_arrived_nonempty by lia. lia.
    + left. exists p. by split_and!.
  - assert (Hsorted := sorted_by_perm le (r :: rs)).
    destruct (sorted_by le (r :: rs)) as [|p ready'] eqn:Hs.
    { by apply Permutation_nil_l in Hsorted. }
    eexists. split; [done|]. simpl. split_and!; [lia| |].
    + apply (f_equal length) in Hq.
      rewrite length_app, length_take, length_drop in Hq.
      apply Permutation_length in Hsorted. simpl in *.
      match goal with |- context [idle ?q] => pose proof (idle_le_1 q) end.
      lia.
    + right. exists k, p. cbv zeta. rewrite Hq. by split_and!.
Qed.

Lemma np_body_rest (le : Process -> Process -> bool) (procs : list Process)
  (st st' : np_state) (k : nat) (p : Process) :
  sorted_by le (np_ready st ++ take k (drop (np_i st) procs))
  = p :: np_ready st' ->
  np_i st' = (np_i st + k)%nat ->
  np_rest procs st ≡ₚ p :: np_rest procs st'.
Proof.
  intros Hs Hi. unfold np_rest. rewrite Hi.
  rewrite <- (take_drop k (drop (np_i st) procs)) at 1.
  rewrite drop_drop, app_assoc.
  rewrite <- (sorted_by_perm le (np_ready st ++ take k (drop (np_i st) procs))).
  by rewrite Hs.
Qed.

(** The non-preemptive loop ends on every input, with a timeline that names
    input processes only. *)
Lemma np_loop_total (le : Process -> Process -> bool) (procs : list Process) :
  exists st,
    (forall fuel, (np_measure procs (mk_np 0 [] 0 []) <= fuel)%nat ->
       while (np_cond procs) (np_body le procs) fuel (mk_np 0 [] 0 []) = Ret st)
    /\ Forall (fun sl => Slice.pid sl ∈ pids procs) (np_timeline st).
Proof.
  destruct (while_total (np_cond procs) (np_body le procs)
              (fun st => (np_i st <= length procs)%nat
                         /\ Forall (fun p => p ∈ procs) (np_ready st)
                         /\ Forall (fun sl => Slice.pid sl ∈ pids procs)
                              (np_timeline st))
              (np_measure procs)) with (s := mk_np 0 [] 0 [])
    as (st & Hrun & (_ & _ & Htl) & _).
  - intros st (Hi & Hready & Htl) Hcond.
    destruct (np_body_cases le procs st Hi Hcond)
      as (st' & Hbody & Hi' & Hm & [(p & _ & _ & _ & ->)
                                   |(k & p & Hs & _ & _ & Hik & _ & Htl')]).
    + exists (mk_np (Process.arrival p) [] (np_i st) (np_timeline st)).
      split_and!; [done..|constructor|done|done].
    + exists st'. split_and!; [done..| | |done].
      * assert (Hall : Forall (fun p => p ∈ procs) (p :: np_ready st')).
        { rewrite <- Hs, sorted_by_perm. apply Forall_app. split; [done|].
          apply Forall_forall. intros q Hq.
          eapply (subseteq_drop (np_i st)), (subseteq_take k), Hq. }
        by apply Forall_cons in Hall as [_ ?].
      * rewrite Htl'. apply Forall_app. split; [done|].
        repeat constructor. simpl. apply list_elem_of_fmap_2.
        assert (Hin : p ∈ sorted_by le
                        (np_ready st ++ take k (drop (np_i st) procs))).
        { rewrite Hs. by left. }
        rewrite sorted_by_perm in Hin. apply elem_of_app in Hin as [Hin|Hin].
        -- rewrite Forall_forall in Hready. by apply Hready.
        -- eapply (subseteq_drop (np_i st)), (subseteq_take k), Hin.
  - simpl. split_and!; [lia|constructor..].
  - by exists st.
Qed.

Lemma np_result_any (le : Process -> Process -> bool) (name : string)
  (processes : list Process) :
  exists r, returns (fun fuel => np_timeline_of le processes fuel
                                 ≫= compute_metrics name processes) r
            /\ metrics_of name processes (timeline r) r.
Proof.
  pose proof (sorted_by_perm by_arrival processes) as Hperm.
  destruct (np_loop_total le (sorted_by by_arrival processes))
    as (st & Hrun & Hpids).
  destruct (compute_metrics_spec name processes (np_timeline st))
    as (r & Hr & Hm).
  { eapply Forall_impl; [exact Hpids|]. intros sl. unfold pids.
    by rewrite Hperm. }
  exists r. rewrite (met_timeline _ _ _ _ Hm). split; [|done].
  eexists. intros fuel Hf. unfold np_timeline_of.
  by rewrite (Hrun fuel Hf).
Qed.

(** ** The dispatcher never fails *)


(** ** The selection policy of SJF and Priority *)

Section key_order.
Context {A : Type} (R : A -> A -> Prop) (le : A -> A -> bool).
Hypothesis le_R : forall x y, le x y = true -> R x y.
Hypothesis not_le_R : forall x y, le x y = false -> R y x.
Hypothesis R_trans : forall x y z, R x y -> R y z -> R x z.

Lemma insert_by_key_sorted (x : A) (l : list A) :
  StronglySorted R l -> StronglySorted R (insert_by le x l).
Proof.
  induction 1 as [|y l Hs IH Hy]; simpl.
  - repeat constructor.
  - destruct (le x y) eqn:Hxy.
    + apply le_R in Hxy. constructor; [by constructor|].
      constructor; [done|]. eapply Forall_impl; [exact Hy|].
      intros z Hz. by eapply R_trans.
    + apply not_le_R in Hxy. constructor; [done|].
      rewrite insert_by_perm. by constructor.
Qed.

Lemma sorted_by_key_sorted (l : list A) :
  StronglySorted R (sorted_by le l).
Proof.
  induction l as [|x l IH]; simpl; [constructor|].
  by apply insert_by_key_sorted.
Qed.

(** The element that [sort] then [pop(0)] selects is least. *)
Lemma sorted_by_head_least (l l' : list A) (x : A) :
  sorted_by le l = x :: l' -> Forall (R x) l'.
Proof.
  intros H. pose proof (sorted_by_key_sorted l) as Hs. rewrite H in Hs.
  by apply StronglySorted_inv in Hs as [_ ?].
Qed.
End key_order.

Lemma string_leb_trans (a b c : string) :
  String.leb a b = true -> String.leb b c = true -> String.leb a c = true.
Proof.
  unfold String.leb. revert b c.
  induction a as [|x a IH]; intros [|y b] [|z c]; simpl; try done.
  unfold Ascii.compare.
  destruct (N.compare_spec (Ascii.N_of_ascii x) (Ascii.N_of_ascii y));
    destruct (N.compare_spec (Ascii.N_of_ascii y) (Ascii.N_of_ascii z));
    try done;
    destruct (N.compare_spec (Ascii.N_of_ascii x) (Ascii.N_of_ascii z));
    try done; try lia.
  apply IH.
Qed.

Lemma tuple_le_spec (f : Process -> Z) (p q : Process) :
  tuple_le (f p) p (f q) q = true <-> key_le f p q.
Proof.
  unfold tuple_le, key_le.
  destruct (Z.ltb_spec (f p) (f q)); [split; [by left|done]|].
  destruct (Z.ltb_spec (f q) (f p)); [split; [done|lia]|].
  destruct (Z.ltb_spec (Process.arrival p) (Process.arrival q));
    [split; [right; split; [lia|by left]|done]|].
  destruct (Z.ltb_spec (Process.arrival q) (Process.arrival p));
    [split; [done|lia]|].
  split.
  - intros Hs. right. split; [lia|]. right. split; [lia|done].
  - intros [?|[_ [?|[_ ?]]]]; [lia|lia|done].
Qed.

Lemma key_le_total (f : Process -> Z) (p q : Process) :
  tuple_le (f p) p (f q) q = false -> key_le f q p.
Proof.
  intros Hpq. apply tuple_le_spec. revert Hpq. unfold tuple_le.
  destruct (Z.ltb_spec (f p) (f q)); [done|].
  destruct (Z.ltb_spec (f q) (f p)); [done|].
  destruct (Z.ltb_spec (Process.arrival p) (Process.arrival q)); [done|].
  destruct (Z.ltb_spec (Process.arrival q) (Process.arrival p)); [done|].
  intros Hpq.
  destruct (String.leb_total (Process.pid p) (Process.pid q)) as [Hle|Hle];
    [congruence|done].
Qed.

Lemma key_le_trans (f : Process -> Z) (p q r : Process) :
  key_le f p q -> key_le f q r -> key_le f p r.
Proof.
  unfold key_le.
  intros [?|[? [?|[? Hpq]]]] [?|[? [?|[? Hqr]]]];
    try (left; lia); try (right; split; [lia|left; lia]).
  right. split; [lia|]. right. split; [lia|]. by eapply string_leb_trans.
Qed.

Lemma np_exit (Inv : np_state -> Prop) (le : Process -> Process -> bool)
  (name : string) (processes : list Process) (fuel : nat) (r : Result) :
  let procs := sorted_by by_arrival processes in
  Inv (mk_np 0 [] 0 []) ->
  (forall st st', Inv st -> np_cond procs st = true ->
                  np_body le procs st = Ret st' -> Inv st') ->
  np_timeline_of le processes fuel ≫= compute_metrics name processes = Ret r ->
  exists st, Inv st /\ np_cond procs st = false /\ np_timeline st = timeline r.
Proof.
  intros procs Hinit Hstep. unfold np_timeline_of. fold procs.
  destruct (while _ _ fuel _) as [st| |] eqn:Hw; [|done..]. simpl.
  intros Hr%compute_metrics_timeline.
  destruct (while_invariant _ _ Inv Hstep fuel _ _ Hinit Hw). by exists st.
Qed.

Section policy.
Context (R : Process -> Process -> Prop) (le : Process -> Process -> bool).
Context (procs : list Process).
Hypothesis le_R : forall x y, le x y = true -> R x y.
Hypothesis not_le_R : forall x y, le x y = false -> R y x.
Hypothesis R_trans : forall x y z, R x y -> R y z -> R x z.
Hypothesis procs_sorted : StronglySorted arrival_le procs.
Hypothesis procs_positive : bursts_positive procs.

Lemma np_policy_step (st st' : np_state) :
  np_policy_inv R procs st -> np_cond procs st = true ->
  np_body le procs st = Ret st' -> np_policy_inv R procs st'.
Proof.
  intros (Hi & Hready & order & Hperm & Hruns & Hsel) Hcond Hbody.
  destruct (np_body_cases le procs st Hi Hcond)
    as (st1 & Hbody1 & Hi' & _ & Hcases).
  rewrite Hbody in Hbody1. injection Hbody1 as <-.
  destruct Hcases as [(p & Hnil & Hp & Hlt & ->)
                     |(k & p & Hs & Harr & Hhd & Hik & Ht & Htl)].
  - unfold np_policy_inv, np_rest in *. simpl. rewrite Hnil in *.
    split_and!; [done|constructor|]. by exists order.
  - cbv zeta in Hs.
    pose proof (np_body_rest le procs st st' k p Hs Hik) as Hrest.
    set (ready_all := np_ready st ++ take k (drop (np_i st) procs)) in *.
    assert (Hall : Forall (fun q => Process.arrival q <= np_t st) ready_all)
      by by apply Forall_app.
    rewrite <- (sorted_by_perm le ready_all), Hs in Hall.
    apply Forall_cons in Hall as [Hp_arr Hready'].
    assert (Hp_in : p ∈ procs).
    { apply (elem_of_Permutation_proper _ _ _ Hperm). rewrite Hrest.
      apply elem_of_app. right. by left. }
    assert (Hburst : 1 <= Process.burst p).
    { unfold bursts_positive in procs_positive.
      rewrite Forall_forall in procs_positive. by apply procs_positive. }
    unfold np_policy_inv. split_and!; [done| |].
    { rewrite Ht. eapply Forall_impl; [exact Hready'|].
      intros; simpl in *; lia. }
    exists (order ++ [p]). rewrite Htl. split_and!.
    + rewrite <- app_assoc. simpl. by rewrite <- Hrest.
    + apply Forall2_app; [done|]. by repeat constructor.
    + pose proof (Forall2_length _ _ _ Hruns) as Hlen.
      intros i p0 s0 q Hi0 Hs0 Hq Harrq.
      destruct (decide (i < length order)%nat) as [Hlt|Hge].
      * rewrite lookup_app_l in Hi0 by done.
        rewrite lookup_app_l in Hs0 by lia.
        apply (Hsel i p0 s0 q Hi0 Hs0); [|done].
        rewrite drop_app_le in Hq by lia.
        rewrite <- app_assoc in Hq. simpl in Hq. by rewrite Hrest.
      * assert (i = length order) as ->.
        { apply lookup_lt_Some in Hi0. rewrite length_app in Hi0.
          simpl in Hi0. lia. }
        rewrite list_lookup_middle in Hi0 by done.
        rewrite Hlen, list_lookup_middle in Hs0 by done.
        injection Hi0 as <-. injection Hs0 as <-. simpl in Harrq.
        rewrite drop_ge in Hq by (rewrite length_app; simpl; lia).
        simpl in Hq. unfold np_rest in Hq.
        apply elem_of_app in Hq as [Hq|Hq].
        -- pose proof (sorted_by_head_least R le le_R not_le_R R_trans _ _ _ Hs)
             as Hleast.
           rewrite Forall_forall in Hleast. by apply Hleast.
        -- exfalso. rewrite Hik in Hq.
           pose proof (sorted_head_late (np_t st) _
                         (StronglySorted_drop _ _ (np_i st + k) procs_sorted)
                         Hhd) as Hlate.
           rewrite Forall_forall in Hlate. specialize (Hlate q Hq).
           simpl in Hlate. lia.
Qed.
End policy.

Lemma np_policy_result (R : Process -> Process -> Prop)
  (le : Process -> Process -> bool) (name : string)
  (processes : list Process) :
  (forall x y, le x y = true -> R x y) ->
  (forall x y, le x y = false -> R y x) ->
  (forall x y z, R x y -> R y z -> R x z) ->
  bursts_positive processes ->
  exists r,
    returns (fun fuel => np_timeline_of le processes fuel
                         ≫= compute_metrics name processes) r
    /\ least_first R processes (timeline r).
Proof.
  intros Hle Hnle Htrans Hb.
  destruct (np_result le name processes Hb) as (r & Hret & _).
  exists r. split; [done|]. destruct Hret as [fuel Hfuel].
  pose proof (sorted_by_perm by_arrival processes) as Hperm.
  set (procs := sorted_by by_arrival processes) in *.
  destruct (np_exit (np_policy_inv R procs) le name processes fuel r)
    as (st & (Hi & _ & order & Hord & Hruns & Hsel) & Hexit & <-).
  - unfold np_policy_inv, np_rest. simpl. rewrite drop_0.
    split_and!; [lia|constructor|]. exists []. split_and!; [done|constructor|].
    by intros i p sl q Hp.
  - intros st st'. apply np_policy_step; [done..| |].
    + apply sorted_by_arrival_sorted.
    + unfold bursts_positive. by rewrite Hperm.
  - by apply Hfuel.
  - unfold np_cond in Hexit. apply orb_false_elim in Hexit as [Hlen Hnil].
    apply bool_decide_eq_false in Hlen.
    apply negb_false_iff, bool_decide_eq_true in Hnil.
    fold procs in Hlen.
    assert (Hrest : np_rest procs st = []).
    { unfold np_rest. rewrite Hnil, drop_ge by lia. done. }
    rewrite Hrest in Hord, Hsel. rewrite app_nil_r in Hord.
    exists order. split_and!; [by rewrite Hord|done|].
    intros i j p q sl Hij Hp Hq Hsl Harr.
    apply (Hsel i p sl q Hp Hsl); [|done]. rewrite app_nil_r.
    apply list_elem_of_lookup. exists (j - S i)%nat.
    rewrite lookup_drop, <- Hq. f_equal. lia.
Qed.

(** X5. SJF serves every process once and always picks a shortest job: when a
    process [p] starts, every process [q] that runs later and had arrived by
    then has [(p.burst, p.arrival, p.pid) <= (q.burst, q.arrival, q.pid)]; so
    its burst is not smaller, and among equal bursts the earlier arrival,
    then the smaller pid, goes first. *)
Theorem sjf_shortest_first (processes : list Process) :
  bursts_positive processes ->
  exists r, returns (fun fuel => sjf_non_preemptive fuel processes) r
            /\ least_first (key_le Process.burst) processes (timeline r).
Proof.
  apply np_policy_result.
  - intros p q. apply tuple_le_spec.
  - intros p q. apply key_le_total.
  - apply key_le_trans.
Qed.

Lemma sjf_shortest_first_witness :
  bursts_positive seed
  /\ exists r, returns (fun fuel => sjf_non_preemptive fuel seed) r
               /\ least_first (key_le Process.burst) seed (timeline r).
Proof.
  split; [exact seed_bursts_positive|].
  apply (sjf_shortest_first seed seed_bursts_positive).
Defined.

(** X6. Priority serves every process once and always picks a most urgent one:
    when a process [p] starts, every process [q] that runs later and had
    arrived by then has
    [(p.priority, p.arrival, p.pid) <= (q.priority, q.arrival, q.pid)]; so its
    priority number is not smaller, and among equal priorities the earlier
    arrival, then the smaller pid, goes first. *)
Theorem priority_most_urgent_first (processes : list Process) :
  bursts_positive processes ->
  exists r, returns (fun fuel => priority_non_preemptive fuel processes) r
            /\ least_first (key_le Process.priority) processes (timeline r).
Proof.
  apply np_policy_result.
  - intros p q. apply tuple_le_spec.
  - intros p q. apply key_le_total.
  - apply key_le_trans.
Qed.

Lemma priority_most_urgent_first_witness :
  bursts_positive seed
  /\ exists r, returns (fun fuel => priority_non_preemptive fuel seed) r
               /\ least_first (key_le Process.priority) seed (timeline r).
Proof.
  split; [exact seed_bursts_positive|].
  apply (priority_most_urgent_first seed seed_bursts_positive).
Defined.

(** ** The CPU never idles while a process waits *)

Lemma conserving_init (procs : list Process) :
  conserving procs 0 [] procs.
Proof.
  split_and!; [by left|by apply Forall_forall|]. by intros i sl Hi.
Qed.

Lemma conserving_idle (procs : list Process) (t t' : Z) (tl : list Slice)
  (rest : list Process) :
  conserving procs t tl rest -> t < t' ->
  Forall (fun p => t' <= Process.arrival p) rest ->
  conserving procs t' tl rest.
Proof.
  intros (Hh & Hin & Hall) Ht Hlate. split_and!; [|done..].
  right. split; [|done]. destruct Hh as [?|[? _]]; lia.
Qed.

Lemma conserving_run (procs : list Process) (t d : Z) (tl : list Slice)
  (rest rest' : list Process) (p : Process) :
  conserving procs t tl rest -> p ∈ rest -> rest' ⊆ rest ->
  conserving procs (t + d) (tl ++ [Slice.mk (Process.pid p) t (t + d)]) rest'.
Proof.
  intros (Hh & Hin & Hall) Hp Hsub.
  assert (Hweak : forall (P : Process -> Prop), Forall P rest -> Forall P rest').
  { intros P HP. rewrite Forall_forall in HP. apply Forall_forall.
    intros q Hq. apply HP, Hsub, Hq. }
  assert (Hp_in : p ∈ procs) by (rewrite Forall_forall in Hin; by apply Hin).
  split_and!.
  - left. by rewrite horizon_snoc.
  - by apply Hweak.
  - intros i sl Hi.
    destruct (decide (i < length tl)%nat) as [Hlt|Hge].
    + rewrite lookup_app_l in Hi by done.
      rewrite take_app_le, drop_app_le by lia.
      destruct (Hall i sl Hi) as [?|(Hgap & Hnb & Hrest)]; [by left|].
      right. split_and!; [done| |by apply Hweak].
      apply Forall_app. split; [done|]. repeat constructor.
      exists p. rewrite Forall_forall in Hrest. split_and!; [done..|].
      by apply Hrest.
    + assert (i = length tl) as ->.
      { apply lookup_lt_Some in Hi. rewrite length_app in Hi. simpl in Hi. lia. }
      rewrite list_lookup_middle in Hi by done. injection Hi as <-.
      rewrite take_app_length, drop_app_length. simpl.
      destruct Hh as [Heq|[Hgap Hrest]]; [by left|].
      right. split_and!; [done| |by apply Hweak].
      repeat constructor. exists p. rewrite Forall_forall in Hrest.
      split_and!; [done..|]. by apply Hrest.
Qed.

Lemma conserving_done (procs : list Process) (t : Z) (tl : list Slice)
  (rest : list Process) :
  conserving procs t tl rest -> work_conserving procs tl.
Proof.
  intros (_ & _ & Hall) i sl Hi.
  destruct (Hall i sl Hi) as [?|(? & ? & _)]; [by left|by right].
Qed.

Lemma conserving_perm (procs procs' : list Process) (tl : list Slice) :
  procs ≡ₚ procs' -> work_conserving procs tl -> work_conserving procs' tl.
Proof.
  intros Hperm Hw i sl Hi.
  destruct (Hw i sl Hi) as [?|[? Hnb]]; [by left|]. right. split; [done|].
  eapply Forall_impl; [exact Hnb|]. intros sl' (p & Hp & ?).
  exists p. by rewrite <- Hperm.
Qed.

Lemma sorted_all_late (procs : list Process) (i : nat) (p : Process) :
  StronglySorted arrival_le procs -> procs !! i = Some p ->
  Forall (fun q => Process.arrival p <= Process.arrival q) (drop i procs).
Proof.
  intros Hs Hp. apply (StronglySorted_drop _ _ i) in Hs.
  rewrite (drop_S _ _ _ Hp) in Hs |- *.
  apply StronglySorted_inv in Hs as [_ Hs]. constructor; [lia|].
  eapply Forall_impl; [exact Hs|]. unfold arrival_le. intros; simpl in *; lia.
Qed.

(** FCFS *)
Lemma fcfs_fold_conserving (procs l : list Process) (t : Z) (tl : list Slice) :
  StronglySorted arrival_le l -> conserving procs t tl l ->
  work_conserving procs (foldl fcfs_step (t, tl) l).2.
Proof.
  revert t tl. induction l as [|p l IH]; intros t tl Hs Hc; simpl.
  { by eapply conserving_done. }
  apply StronglySorted_inv in Hs as [Hs Hp].
  apply IH; [done|].
  apply conserving_run with (rest := p :: l); [|by left|set_solver].
  destruct (Z.ltb_spec t (Process.arrival p)) as [Hlt|Hge]; [|done].
  apply conserving_idle with (t := t); [done..|].
  constructor; [lia|]. eapply Forall_impl; [exact Hp|].
  unfold arrival_le. intros; simpl in *; lia.
Qed.

Lemma fcfs_timeline_conserving (processes : list Process) :
  work_conserving processes (fcfs_timeline processes).
Proof.
  apply (conserving_perm (sorted_by by_arrival processes));
    [apply sorted_by_perm|].
  apply fcfs_fold_conserving; [apply sorted_by_arrival_sorted|].
  apply conserving_init.
Qed.

(** The non-preemptive loop *)
Lemma np_conserving_step (le : Process -> Process -> bool)
  (procs : list Process) (st st' : np_state) :
  StronglySorted arrival_le procs ->
  (np_i st <= length procs)%nat
  /\ conserving procs (np_t st) (np_timeline st) (np_rest procs st) ->
  np_cond procs st = true -> np_body le procs st = Ret st' ->
  (np_i st' <= length procs)%nat
  /\ conserving procs (np_t st') (np_timeline st') (np_rest procs st').
Proof.
  intros Hsorted [Hi Hc] Hcond Hbody.
  destruct (np_body_cases le procs st Hi Hcond)
    as (st1 & Hbody1 & Hi' & _ & Hcases).
  rewrite Hbody in Hbody1. injection Hbody1 as <-. split; [done|].
  destruct Hcases as [(p & Hnil & Hp & Hlt & ->)
                     |(k & p & Hs & _ & _ & Hik & -> & ->)].
  - unfold np_rest in *. simpl. rewrite Hnil in *. simpl in *.
    apply conserving_idle with (t := np_t st); [done..|].
    by apply sorted_all_late.
  - pose proof (np_body_rest le procs st st' k p Hs Hik) as Hrest.
    apply conserving_run with (rest := np_rest procs st); [done| |].
    + rewrite Hrest. by left.
    + intros q Hq. rewrite Hrest. by right.
Qed.

(** The round-robin loop *)
Lemma rr_conserving_step (quantum : Z) (procs : list Process)
  (st st' : rr_state) :
  StronglySorted arrival_le procs ->
  (rr_i st <= length procs)%nat
  /\ conserving procs (rr_t st) (rr_timeline st) (fst <$> rr_rest procs st) ->
  rr_cond procs st = true -> rr_body quantum procs st = Ret st' ->
  (rr_i st' <= length procs)%nat
  /\ conserving procs (rr_t st') (rr_timeline st') (fst <$> rr_rest procs st').
Proof.
  intros Hsorted [Hi Hc] Hcond Hbody.
  destruct (rr_body_rest quantum procs st Hi Hcond)
    as (st1 & Hbody1 & Hi' & Hcases).
  rewrite Hbody in Hbody1. injection Hbody1 as <-. split; [done|].
  destruct Hcases as [(-> & Hrest & Hlt & Hnil & p & Hp & Ht)
                     |(p & rem & R & Hr & Hr' & -> & ->)].
  - rewrite Hrest. apply conserving_idle with (t := rr_t st); [done..|].
    unfold rr_rest. rewrite Hnil, Ht. simpl.
    rewrite <- list_fmap_compose, list_fmap_id.
    by apply sorted_all_late.
  - cbv zeta in Hr'.
    apply conserving_run with (rest := fst <$> rr_rest procs st); [done| |].
    + rewrite Hr. simpl. by left.
    + intros q Hq. rewrite Hr' in Hq. rewrite Hr. rewrite fmap_app in Hq.
      apply elem_of_app in Hq as [Hq|Hq]; [|by right].
      destruct (0 <? rem - Z.min quantum rem); simpl in Hq; [|set_solver].
      apply list_elem_of_singleton in Hq as ->. by left.
Qed.

Lemma np_conserving (le : Process -> Process -> bool) (name : string)
  (processes : list Process) :
  exists r, returns (fun fuel => np_timeline_of le processes fuel
                                 ≫= compute_metrics name processes) r
            /\ work_conserving processes (timeline r).
Proof.
  destruct (np_result_any le name processes) as (r & Hret & _).
  exists r. split; [done|]. destruct Hret as [fuel Hfuel].
  set (procs := sorted_by by_arrival processes).
  destruct (np_exit
              (fun st => (np_i st <= length procs)%nat
                         /\ conserving procs (np_t st) (np_timeline st)
                              (np_rest procs st))
              le name processes fuel r) as (st & [_ Hc] & _ & <-).
  - split; [simpl; lia|]. unfold np_rest. simpl. rewrite drop_0.
    apply conserving_init.
  - intros st st'. apply np_conserving_step, sorted_by_arrival_sorted.
  - by apply Hfuel.
  - apply (conserving_perm procs); [apply sorted_by_perm|].
    by eapply conserving_done.
Qed.

(** X7. In the timeline of each of the four algorithms, for every process list
    and every quantum of at least 1, a slice starts when the previous one ends
    (the first at time 0) unless the CPU had nothing to run: then it starts at
    a time before which none of the processes still to be run had arrived. *)
Theorem never_idle_while_waiting (processes : list Process) (quantum : Z) :
  1 <= quantum ->
  each_algorithm quantum processes
    (fun r => work_conserving processes (timeline r)).
Proof.
  intros Hq. unfold each_algorithm. split_and!.
  - destruct (fcfs_result processes) as (r & Hr & Hm & _). exists r.
    split; [done|]. rewrite (met_timeline _ _ _ _ Hm).
    apply fcfs_timeline_conserving.
  - apply np_conserving.
  - apply np_conserving.
  - destruct (rr_result quantum processes Hq) as (r & Hret & _).
    exists r. split; [done|]. destruct Hret as [fuel Hfuel].
    set (procs := sorted_by by_arrival processes).
    destruct (round_robin_exit
                (fun st => (rr_i st <= length procs)%nat
                           /\ conserving procs (rr_t st) (rr_timeline st)
                                (fst <$> rr_rest procs st))
                quantum processes fuel r) as (st & [_ Hc] & _ & <-).
    + split; [simpl; lia|]. unfold rr_rest. simpl. rewrite drop_0.
      rewrite <- list_fmap_compose, list_fmap_id. apply conserving_init.
    + intros st st'. apply rr_conserving_step, sorted_by_arrival_sorted.
    + by apply Hfuel.
    + apply (conserving_perm procs); [apply sorted_by_perm|].
      by eapply conserving_done.
Qed.

Lemma never_idle_while_waiting_witness :
  1 <= 2
  /\ each_algorithm 2 seed (fun r => work_conserving seed (timeline r)).
Proof. split; [lia|]. apply (never_idle_while_waiting seed 2). lia. Defined.

(** ** Total CPU time *)

Lemma Zsum_filter_split {A} (f : A -> Z) (P : A -> Prop)
  `{!forall x, Decision (P x)} (l : list A) :
  Zsum (f <$> l)
  = Zsum (f <$> filter P l) + Zsum (f <$> filter (fun x => ~ P x) l).
Proof.
  rewrite <- Zsum_app, <- fmap_app. apply Zsum_perm.
  by rewrite filter_app_complement.
Qed.

(** Conservation pid by pid gives conservation of the total. *)
Lemma total_by_pid (procs : list Process) (tl : list Slice) :
  (forall x, cpu_time x tl = burst_total x procs) ->
  Forall (fun sl => Slice.pid sl ∈ pids procs) tl ->
  Zsum (duration <$> tl) = Zsum (Process.burst <$> procs).
Proof.
  remember (length procs) as n eqn:Hn. revert procs tl Hn.
  induction n as [n IH] using lt_wf_ind. intros procs tl -> Hc Hin.
  destruct procs as [|p procs'] eqn:Hprocs.
  { destruct tl as [|sl tl]; [done|].
    apply Forall_cons in Hin as [Hsl _]. by apply not_elem_of_nil in Hsl. }
  rewrite <- Hprocs in *. set (x := Process.pid p).
  rewrite (Zsum_filter_split duration (fun sl => Slice.pid sl = x) tl).
  rewrite (Zsum_filter_split Process.burst (fun q => Process.pid q = x) procs).
  f_equal; [apply (Hc x)|].
  apply (IH (length (filter (fun q => Process.pid q <> x) procs))); [|done| |].
  - rewrite Hprocs, filter_cons_False by (intros Hx; by apply Hx).
    simpl. pose proof (length_filter (fun q => Process.pid q <> x) procs').
    lia.
  - intros y. unfold cpu_time, burst_total, slices_of, procs_of.
    destruct (decide (y = x)) as [->|Hne].
    + rewrite !filter_none; [done| |].
      * by intros q [Hq _]%list_elem_of_filter.
      * by intros sl [Hsl _]%list_elem_of_filter.
    + rewrite !list_filter_filter_l by (intros ? ->; done). apply (Hc y).
  - apply Forall_forall. intros sl [Hne Hsl]%list_elem_of_filter.
    rewrite Forall_forall in Hin. specialize (Hin sl Hsl).
    apply list_elem_of_fmap in Hin as (q & Hq & Hqin).
    apply list_elem_of_fmap. exists q. split; [done|].
    apply list_elem_of_filter. split; [congruence|done].
Qed.

(** A timeline without gaps that starts at time 0 ends after the sum of its
    durations. *)
Lemma gapless_horizon (tl : list Slice) :
  (forall (i : nat) sl, tl !! i = Some sl ->
     Slice.start sl = horizon 0 (take i tl)) ->
  horizon 0 tl = Zsum (duration <$> tl).
Proof.
  induction tl as [|sl tl IH] using rev_ind; intros Hgap; [done|].
  rewrite horizon_snoc, fmap_app, Zsum_app. simpl.
  pose proof (Hgap (length tl) sl (list_lookup_middle _ _ _ _ eq_refl)) as Hs.
  rewrite take_app_length in Hs.
  rewrite <- IH.
  - unfold duration. lia.
  - intros i s Hi. pose proof (lookup_lt_Some _ _ _ Hi).
    rewrite <- (take_app_le tl [sl]) by lia. apply Hgap.
    by rewrite lookup_app_l.
Qed.

Lemma each_algorithm_and (quantum : Z) (processes : list Process)
  (P Q : Result -> Prop) :
  each_algorithm quantum processes P -> each_algorithm quantum processes Q ->
  each_algorithm quantum processes (fun r => P r /\ Q r).
Proof.
  intros ((r1 & E1 & P1) & (r2 & E2 & P2) & (r3 & E3 & P3) & (r4 & E4 & P4))
         ((q1 & F1 & Q1) & (q2 & F2 & Q2) & (q3 & F3 & Q3) & (q4 & F4 & Q4)).
  rewrite E1 in F1. injection F1 as <-.
  rewrite <- (returns_unique _ _ _ E2 F2) in Q2.
  rewrite <- (returns_unique _ _ _ E3 F3) in Q3.
  rewrite <- (returns_unique _ _ _ E4 F4) in Q4.
  unfold each_algorithm. split_and!; eauto.
Qed.

(** X8. When every process has arrived by time 0 (bursts of at least 1, quantum
    of at least 1), each of the four algorithms keeps the CPU busy without a
    gap from time 0 on, and all four finish at the same time: the sum of the
    bursts. *)
Theorem busy_from_time_zero (processes : list Process) (quantum : Z) :
  bursts_positive processes -> 1 <= quantum ->
  Forall (fun p => Process.arrival p <= 0) processes ->
  each_algorithm quantum processes
    (fun r => (forall (i : nat) sl, timeline r !! i = Some sl ->
                 Slice.start sl = horizon 0 (take i (timeline r)))
              /\ horizon 0 (timeline r) = Zsum (Process.burst <$> processes)).
Proof.
  intros Hb Hq Harr.
  pose proof (each_algorithm_and _ _ _ _
    (each_algorithm_schedule quantum processes
       (fun r => schedule processes (timeline r)) Hb Hq
       (fun name r Hs _ => Hs))
    (never_idle_while_waiting processes quantum Hq)) as Hall.
  assert (Hstep : forall r,
            schedule processes (timeline r)
            /\ work_conserving processes (timeline r) ->
            (forall (i : nat) sl, timeline r !! i = Some sl ->
               Slice.start sl = horizon 0 (take i (timeline r)))
            /\ horizon 0 (timeline r) = Zsum (Process.burst <$> processes)).
  { intros r [Hs Hw].
    assert (Hgap : forall (i : nat) sl, timeline r !! i = Some sl ->
              Slice.start sl = horizon 0 (take i (timeline r))).
    { intros i sl Hi. destruct (Hw i sl Hi) as [?|[Hlt Hnb]]; [done|].
      exfalso. rewrite (drop_S _ _ _ Hi) in Hnb.
      apply Forall_cons in Hnb as [(p & Hp & _ & Hle) _].
      rewrite Forall_forall in Harr. specialize (Harr p Hp). simpl in Harr.
      pose proof (sched_ordered _ _ Hs) as Ho.
      assert (Ho' : ordered_from 0 (take i (timeline r))).
      { rewrite <- (take_drop i (timeline r)) in Ho.
        clear -Ho. revert Ho. generalize (drop i (timeline r)).
        generalize 0. induction (take i (timeline r)) as [|s l IH];
          intros t0 l' Ho; [done|].
        destruct Ho as (? & ? & Ho). simpl. split_and!; [done..|].
        by eapply IH. }
      apply ordered_from_horizon in Ho'. lia. }
    split; [done|]. rewrite (gapless_horizon _ Hgap).
    apply total_by_pid; [apply (sched_conserves _ _ Hs)|].
    by apply schedule_pids. }
  destruct Hall as ((r1 & ? & ?) & (r2 & ? & ?) & (r3 & ? & ?) & (r4 & ? & ?)).
  unfold each_algorithm. split_and!; eauto.
Qed.

Lemma busy_from_time_zero_witness :
  bursts_positive together /\ 1 <= 2
  /\ Forall (fun p => Process.arrival p <= 0) together
  /\ each_algorithm 2 together
       (fun r => (forall (i : nat) sl, timeline r !! i = Some sl ->
                    Slice.start sl = horizon 0 (take i (timeline r)))
                 /\ horizon 0 (timeline r) = Zsum (Process.burst <$> together)).
Proof.
  assert (H1 : bursts_positive together) by (repeat constructor; simpl; lia).
  assert (H2 : Forall (fun p => Process.arrival p <= 0) together)
    by (repeat constructor; simpl; lia).
  split; [exact H1|]. split; [lia|]. split; [exact H2|].
  apply (busy_from_time_zero together 2 H1); [lia|exact H2].
Defined.

(** ** Response times *)

(** The first slice of a process starts no earlier than it arrives, and its
    last slice ends at least one burst later. *)
Lemma schedule_first_finish (procs : list Process) (tl : list Slice)
  (p : Process) :
  schedule procs tl -> NoDup (pids procs) -> bursts_positive procs ->
  p ∈ procs ->
  exists s, first_start_of (Process.pid p) tl = Some s
            /\ Process.arrival p <= s
            /\ s + Process.burst p <= finish_of (Process.pid p) tl
            /\ (length (slices_of (Process.pid p) tl) = 1%nat ->
                finish_of (Process.pid p) tl = s + Process.burst p).
Proof.
  intros Hs Hnd Hb Hp.
  pose proof (schedule_conserved _ _ Hs Hnd p Hp) as Hc.
  destruct Hs as [_ Ho Ha].
  unfold bursts_positive in Hb. rewrite Forall_forall in Hb.
  specialize (Hb p Hp). simpl in Hb.
  unfold cpu_time in Hc. unfold finish_of, first_start_of.
  pose proof (ordered_from_filter (fun sl => Slice.pid sl = Process.pid p) 0 tl Ho)
    as Hf.
  fold (slices_of (Process.pid p) tl) in Hf.
  assert (Hsub : forall s, s ∈ slices_of (Process.pid p) tl ->
            Process.arrival p <= Slice.start s).
  { intros s [Hpid Hin]%list_elem_of_filter.
    unfold after_arrival in Ha. rewrite Forall_forall in Ha.
    destruct (Ha s Hin) as (q & Hq & Hqp & Hqa).
    assert (q = p) as ->; [|done].
    eapply same_pid_same_process; [done..|congruence]. }
  destruct (slices_of (Process.pid p) tl) as [|s l] eqn:Hl.
  { simpl in Hc. lia. }
  specialize (Hsub s (list_elem_of_here _ _)).
  destruct Hf as (_ & Hs1 & Hs2).
  assert (Hspan : ordered_from (Slice.start s) (s :: l))
    by (simpl; split_and!; [lia|done..]).
  apply ordered_from_span in Hspan. unfold horizon in Hspan.
  exists (Slice.start s). simpl. split_and!; [done..| |].
  - destruct (last (s :: l)) as [z|] eqn:Hz; simpl in *; [lia|].
    by apply last_None in Hz.
  - intros Hone. destruct l; [|done]. simpl in *. unfold duration in Hc. lia.
Qed.

Lemma metrics_response (name : string) (procs : list Process)
  (tl : list Slice) (r : Result) :
  schedule procs tl -> NoDup (pids procs) -> bursts_positive procs ->
  metrics_of name procs tl r ->
  response_bounded procs r
  /\ (one_slice_each procs tl -> response_is_waiting procs r).
Proof.
  intros Hs Hnd Hb Hm.
  assert (Hrow : forall p, p ∈ procs ->
            exists s, response_times r !! Process.pid p
                      = Some (s - Process.arrival p)
                      /\ waiting_times r !! Process.pid p
                         = Some (finish_of (Process.pid p) tl
                                 - Process.arrival p - Process.burst p)
                      /\ Process.arrival p <= s
                      /\ s + Process.burst p <= finish_of (Process.pid p) tl
                      /\ (length (slices_of (Process.pid p) tl) = 1%nat ->
                          finish_of (Process.pid p) tl = s + Process.burst p)).
  { intros p Hp.
    destruct (schedule_first_finish _ _ _ Hs Hnd Hb Hp) as (s & Hfs & ?).
    exists s. rewrite (met_response _ _ _ _ Hm), (met_waiting _ _ _ _ Hm).
    rewrite (owner_unique _ _ Hnd Hp). simpl.
    unfold response_of, waiting_of, turnaround_of. by rewrite Hfs. }
  split.
  - intros p Hp. destruct (Hrow p Hp) as (s & -> & -> & ? & ? & _).
    eexists _, _. split_and!; [done..|lia|lia].
  - intros Hone p Hp. destruct (Hrow p Hp) as (s & -> & -> & ? & ? & Heq).
    rewrite (Heq (Hone p Hp)). eexists. split; [done|]. f_equal. lia.
Qed.

(** X9. For pairwise distinct pids, bursts of at least 1 and a quantum of at
    least 1, the response time of every process is at least 0 and at most its
    waiting time, in the result of each of the four algorithms. *)
Theorem response_within_waiting (processes : list Process) (quantum : Z) :
  NoDup (pids processes) -> bursts_positive processes -> 1 <= quantum ->
  each_algorithm quantum processes (response_bounded processes).
Proof.
  intros Hnd Hb Hq. apply each_algorithm_schedule; [done..|].
  intros name r Hs Hm. by apply (metrics_response name _ _ _ Hs Hnd Hb Hm).
Qed.

Lemma response_within_waiting_witness :
  NoDup (pids seed) /\ bursts_positive seed /\ 1 <= 2
  /\ each_algorithm 2 seed (response_bounded seed).
Proof.
  split; [exact seed_pids_distinct|]. split; [exact seed_bursts_positive|].
  split; [lia|].
  apply (response_within_waiting seed 2 seed_pids_distinct
           seed_bursts_positive). lia.
Defined.

(** X10. Under FCFS, SJF and Priority a process waits only before it first runs:
    its response time equals its waiting time. *)
Theorem non_preemptive_response_is_waiting (processes : list Process) :
  NoDup (pids processes) -> bursts_positive processes ->
  (exists r, fcfs processes = Ret r /\ response_is_waiting processes r)
  /\ (exists r, returns (fun fuel => sjf_non_preemptive fuel processes) r
                 /\ response_is_waiting processes r)
  /\ (exists r, returns (fun fuel => priority_non_preemptive fuel processes) r
                 /\ response_is_waiting processes r).
Proof.
  intros Hnd Hb. split_and!.
  - destruct (fcfs_result_schedule processes Hb) as (r & ? & Hs & Hperm & Hm).
    exists r. split; [done|].
    apply (metrics_response _ _ _ _ Hs Hnd Hb Hm).
    by apply permuted_pids_one_slice_each.
  - destruct (sjf_result processes Hb) as (r & ? & Hs & Hperm & Hm).
    exists r. split; [done|].
    apply (metrics_response _ _ _ _ Hs Hnd Hb Hm).
    by apply permuted_pids_one_slice_each.
  - destruct (priority_result processes Hb) as (r & ? & Hs & Hperm & Hm).
    exists r. split; [done|].
    apply (metrics_response _ _ _ _ Hs Hnd Hb Hm).
    by apply permuted_pids_one_slice_each.
Qed.

Lemma non_preemptive_response_is_waiting_witness :
  NoDup (pids seed) /\ bursts_positive seed
  /\ (exists r, fcfs seed = Ret r /\ response_is_waiting seed r)
  /\ (exists r, returns (fun fuel => sjf_non_preemptive fuel seed) r
                 /\ response_is_waiting seed r)
  /\ (exists r, returns (fun fuel => priority_non_preemptive fuel seed) r
                 /\ response_is_waiting seed r).
Proof.
  split; [exact seed_pids_distinct|]. split; [exact seed_bursts_positive|].
  apply (non_preemptive_response_is_waiting seed seed_pids_distinct
           seed_bursts_positive).
Defined.

(** ** Averages *)






(** ** The rows of the tables, duplicate pids included *)

(** X12. Whenever every slice bears an input pid, [compute_metrics] returns; its
    result carries the name and the timeline unchanged, and each table maps a
    pid to the row of the last input process bearing it (an earlier process
    with the same pid is overwritten), computed from the first start and the
    last end over all the slices bearing that pid. *)
Theorem metrics_rows (name : string) (procs : list Process) (tl : list Slice) :
  Forall (fun sl => Slice.pid sl ∈ pids procs) tl ->
  exists r,
    compute_metrics name procs tl = Ret r
    /\ algorithm r = name /\ timeline r = tl
    /\ forall x,
         response_times r !! x
         = (fun p => match first_start_of x tl with
                     | Some s => s - Process.arrival p
                     | None => 0
                     end) <$> last (procs_of x procs)
         /\ turnaround_times r !! x
            = (fun p => finish_of x tl - Process.arrival p)
              <$> last (procs_of x procs)
         /\ waiting_times r !! x
            = (fun p => finish_of x tl - Process.arrival p - Process.burst p)
              <$> last (procs_of x procs).
Proof.
  intros Hk. destruct (compute_metrics_spec name procs tl Hk) as (r & Hr & Hm).
  exists r. destruct Hm as [Ha Ht Hrs Hts Hws _]. split_and!; [done..|].
  intros x. rewrite Hrs, Hts, Hws. fold (owner x procs).
  destruct (owner x procs) as [p|] eqn:Ho; [|done].
  apply owner_Some in Ho as [_ <-]. done.
Qed.

Lemma metrics_rows_witness :
  Forall (fun sl => Slice.pid sl ∈ pids seed) only_P1
  /\ exists r,
       compute_metrics "FCFS" seed only_P1 = Ret r
       /\ algorithm r = "FCFS"%string /\ timeline r = only_P1
       /\ forall x,
            response_times r !! x
            = (fun p => match first_start_of x only_P1 with
                        | Some s => s - Process.arrival p
                        | None => 0
                        end) <$> last (procs_of x seed)
            /\ turnaround_times r !! x
               = (fun p => finish_of x only_P1 - Process.arrival p)
                 <$> last (procs_of x seed)
            /\ waiting_times r !! x
               = (fun p => finish_of x only_P1 - Process.arrival p
                           - Process.burst p)
                 <$> last (procs_of x seed).
Proof.
  assert (H : Forall (fun sl => Slice.pid sl ∈ pids seed) only_P1)
    by repeat constructor.
  split; [exact H|]. apply (metrics_rows "FCFS" seed only_P1 H).
Defined.

(** ** First come, first served *)

Lemma fcfs_fold_starts (l order : list Process) (t : Z) (tl : list Slice) :
  t = horizon 0 tl -> length order = length tl -> starts_at_max order tl ->
  starts_at_max (order ++ l) (foldl fcfs_step (t, tl) l).2
  /\ length (foldl fcfs_step (t, tl) l).2 = length (order ++ l).
Proof.
  revert order t tl. induction l as [|p l IH]; intros order t tl Ht Hlen Hst.
  - simpl. rewrite app_nil_r. done.
  - cbn [foldl fcfs_step].
    set (t' := if t <? Process.arrival p then Process.arrival p else t).
    replace (order ++ p :: l) with ((order ++ [p]) ++ l)
      by by rewrite <- app_assoc.
    apply IH.
    + by rewrite horizon_snoc.
    + rewrite !length_app. simpl. lia.
    + intros i q sl Hq Hsl.
      destruct (decide (i < length tl)%nat) as [Hlt|Hge].
      * rewrite lookup_app_l in Hq by lia. rewrite lookup_app_l in Hsl by lia.
        rewrite take_app_le by lia. by apply Hst.
      * assert (i = length tl) as ->.
        { apply lookup_lt_Some in Hsl. rewrite length_app in Hsl.
          simpl in Hsl. lia. }
        rewrite list_lookup_middle in Hsl by done.
        rewrite list_lookup_middle in Hq by done.
        injection Hq as <-. injection Hsl as <-.
        rewrite take_app_length. simpl. split_and!; [|done..].
        unfold t'. destruct (Z.ltb_spec t (Process.arrival p)); lia.
Qed.

(** X13. FCFS runs the processes in the order of their arrival, processes with
    equal arrivals in the order of the input list; each one starts at the
    later of the end of the previous slice (time 0 for the first) and its
    arrival, and runs for its whole burst.  This holds for every process
    list. *)
Theorem fcfs_serves_in_arrival_order (processes : list Process) :
  exists r,
    fcfs processes = Ret r
    /\ sorted_by by_arrival processes ≡ₚ processes
    /\ StronglySorted arrival_le (sorted_by by_arrival processes)
    /\ (forall a, filter (fun p => Process.arrival p = a)
                    (sorted_by by_arrival processes)
                  = filter (fun p => Process.arrival p = a) processes)
    /\ starts_at_max (sorted_by by_arrival processes) (timeline r)
    /\ length (timeline r) = length processes.
Proof.
  destruct (fcfs_result processes) as (r & Hr & Hm & _). exists r.
  rewrite (met_timeline _ _ _ _ Hm).
  destruct (fcfs_fold_starts (sorted_by by_arrival processes) [] 0 [])
    as [Hst Hlen]; [done..|by intros i p sl Hp|].
  split_and!; [done|apply sorted_by_perm|apply sorted_by_arrival_sorted| |done|].
  - intros a. apply sorted_by_arrival_stable.
  - unfold fcfs_timeline. rewrite Hlen. simpl.
    by rewrite (sorted_by_perm by_arrival processes).
Qed.

(** ** Decoding the request *)

Lemma by_arrival_pid_key (p q : Process) :
  (by_arrival_pid p q = true -> Process.arrival p <= Process.arrival q)
  /\ (by_arrival_pid p q = false -> Process.arrival q <= Process.arrival p).
Proof.
  unfold by_arrival_pid.
  destruct (Z.ltb_spec (Process.arrival p) (Process.arrival q));
    [split; [lia|done]|].
  destruct (Z.ltb_spec (Process.arrival q) (Process.arrival p));
    split; lia || done.
Qed.

Lemma by_arrival_pid_total (p q : Process) :
  by_arrival_pid p q = false -> by_arrival_pid q p = true.
Proof.
  unfold by_arrival_pid.
  destruct (Z.ltb_spec (Process.arrival p) (Process.arrival q)); [done|].
  destruct (Z.ltb_spec (Process.arrival q) (Process.arrival p)); [done|].
  intros Hpq.
  destruct (String.leb_total (Process.pid p) (Process.pid q)) as [Hle|Hle];
    [congruence|done].
Qed.

Section total_order.
Context {A : Type} (le : A -> A -> bool).
Hypothesis le_total : forall x y, le x y = false -> le y x = true.

Lemma insert_by_Sorted (x : A) (l : list A) :
  Sorted (fun a b => le a b = true) l ->
  Sorted (fun a b => le a b = true) (insert_by le x l).
Proof.
  induction 1 as [|y l Hs IH Hy]; simpl.
  - repeat constructor.
  - destruct (le x y) eqn:Hxy.
    + repeat constructor; done.
    + constructor; [done|]. destruct Hy as [|z l Hyz]; simpl.
      * constructor. by apply le_total.
      * destruct (le x z); constructor; [by apply le_total|done].
Qed.

Lemma sorted_by_Sorted (l : list A) :
  Sorted (fun a b => le a b = true) (sorted_by le l).
Proof.
  induction l as [|x l IH]; simpl; [constructor|]. by apply insert_by_Sorted.
Qed.
End total_order.

(** Sorting by arrival a list that is in arrival order changes nothing. *)
Lemma sorted_by_arrival_id (l : list Process) :
  StronglySorted arrival_le l -> sorted_by by_arrival l = l.
Proof.
  induction 1 as [|p l Hs IH Hp]; [done|]. simpl. rewrite IH.
  destruct Hp as [|q l Hq _]; [done|]. simpl. unfold by_arrival.
  unfold arrival_le in Hq. by rewrite (proj2 (Z.leb_le _ _) Hq).
Qed.

Section parsing.
Context {value : Type} (int_value : Z -> value).
Context (py_str : value -> string) (py_int : value -> option Z).

Lemma parse_items_app_fail (good rest : list (gmap string value))
  (bad : gmap string value) :
  Forall (fun it => exists p, parse_item int_value py_str py_int it = Parsed p)
    good ->
  parse_items int_value py_str py_int (good ++ bad :: rest)
  = match parse_item int_value py_str py_int bad with
    | Parsed p =>
        match parse_items int_value py_str py_int rest with
        | Parsed procs =>
            match parse_items int_value py_str py_int good with
            | Parsed ps => Parsed (ps ++ p :: procs)
            | ParseKeyError => ParseKeyError
            | ParseIntError => ParseIntError
            end
        | ParseKeyError => ParseKeyError
        | ParseIntError => ParseIntError
        end
    | ParseKeyError => ParseKeyError
    | ParseIntError => ParseIntError
    end.
Proof.
  induction 1 as [|it good [p Hp] _ IH]; simpl.
  - destruct (parse_item _ _ _ bad); [|done..].
    by destruct (parse_items _ _ _ rest).
  - rewrite Hp, IH. destruct (parse_item _ _ _ bad); [|done..].
    destruct (parse_items _ _ _ rest); [|done..].
    by destruct (parse_items _ _ _ good).
Qed.

(** X14. [parse_processes] stops at the first item that cannot be decoded: when
    the items before it are decoded and it has no ["pid"], the call raises
    [KeyError], whatever its other fields and whatever follows. *)
Theorem parse_processes_missing_pid (good rest : list (gmap string value))
  (bad : gmap string value) :
  Forall (fun it => exists p, parse_item int_value py_str py_int it = Parsed p)
    good ->
  bad !! "pid"%string = None ->
  parse_processes int_value py_str py_int (good ++ bad :: rest)
  = ParseKeyError.
Proof.
  intros Hgood Hbad. unfold parse_processes.
  rewrite (parse_items_app_fail _ _ _ Hgood). unfold parse_item at 1.
  by rewrite Hbad.
Qed.

Lemma parse_items_Forall2 (items : list (gmap string value))
  (ps : list Process) :
  parse_items int_value py_str py_int items = Parsed ps ->
  Forall2 (fun it p => parse_item int_value py_str py_int it = Parsed p)
    items ps.
Proof.
  revert ps. induction items as [|it items IH]; intros ps; simpl.
  - intros [= <-]. constructor.
  - destruct (parse_item _ _ _ it) as [p| |] eqn:Hp; [|done..].
    destruct (parse_items _ _ _ items) as [ps'| |]; [|done..].
    intros [= <-]. constructor; [done|]. by apply IH.
Qed.

(** X15. What [parse_processes] returns is the list of the decoded items, one
    process per item, rearranged so that consecutive processes are in
    [(arrival, pid)] order.  The sort by arrival at the head of each
    algorithm leaves such a list as it is, so FCFS serves it in exactly this
    order: equal arrivals are served by ascending pid. *)
Theorem parse_processes_sorted (items : list (gmap string value))
  (procs : list Process) :
  parse_processes int_value py_str py_int items = Parsed procs ->
  (exists ps,
     Forall2 (fun it p => parse_item int_value py_str py_int it = Parsed p)
       items ps
     /\ procs ≡ₚ ps)
  /\ Sorted (fun p q => by_arrival_pid p q = true) procs
  /\ sorted_by by_arrival procs = procs
  /\ exists r, fcfs procs = Ret r /\ Slice.pid <$> timeline r = pids procs.
Proof.
  unfold parse_processes.
  destruct (parse_items _ _ _ items) as [ps| |] eqn:Hps; [|done..].
  intros [= <-].
  assert (Hid : sorted_by by_arrival (sorted_by by_arrival_pid ps)
                = sorted_by by_arrival_pid ps).
  { apply sorted_by_arrival_id.
    apply (sorted_by_key_sorted arrival_le by_arrival_pid); unfold arrival_le.
    - intros p q. by destruct (by_arrival_pid_key p q).
    - intros p q. by destruct (by_arrival_pid_key p q).
    - intros; lia. }
  split_and!.
  - exists ps. split; [by apply parse_items_Forall2|apply sorted_by_perm].
  - apply sorted_by_Sorted, by_arrival_pid_total.
  - done.
  - destruct (fcfs_result (sorted_by by_arrival_pid ps)) as (r & Hr & Hm & _).
    exists r. split; [done|].
    by rewrite (met_timeline _ _ _ _ Hm), fcfs_timeline_pids, Hid.
Qed.
End parsing.

Lemma parse_processes_missing_pid_witness :
  Forall (fun it => exists p, parse_item (fun z => z) pretty Some it = Parsed p)
    [ ({[ "pid"%string := 2 ]} : gmap string Z) ]
  /\ ({[ "arrival"%string := 5 ]} : gmap string Z) !! "pid"%string = None
  /\ parse_processes (fun z => z) pretty Some no_pid_items = ParseKeyError.
Proof.
  assert (H1 : Forall (fun it => exists p,
                         parse_item (fun z => z) pretty Some it = Parsed p)
                 [ ({[ "pid"%string := 2 ]} : gmap string Z) ]).
  { repeat constructor. by eexists. }
  assert (H2 : ({[ "arrival"%string := 5 ]} : gmap string Z) !! "pid"%string
               = None) by reflexivity.
  split; [exact H1|]. split; [exact H2|].
  apply (parse_processes_missing_pid (fun z => z) pretty Some
           [ {[ "pid"%string := 2 ]} ] [ {[ "pid"%string := 1 ]} ]
           {[ "arrival"%string := 5 ]} H1 H2).
Defined.

Lemma parse_processes_sorted_witness :
  parse_processes (fun z => z) pretty Some int_items
  = Parsed [Process.mk "1" 0 3 0; Process.mk "2" 5 1 0]
  /\ (exists ps,
        Forall2 (fun it p => parse_item (fun z => z) pretty Some it = Parsed p)
          int_items ps
        /\ [Process.mk "1" 0 3 0; Process.mk "2" 5 1 0] ≡ₚ ps)
  /\ Sorted (fun p q => by_arrival_pid p q = true)
       [Process.mk "1" 0 3 0; Process.mk "2" 5 1 0]
  /\ sorted_by by_arrival [Process.mk "1" 0 3 0; Process.mk "2" 5 1 0]
     = [Process.mk "1" 0 3 0; Process.mk "2" 5 1 0]
  /\ exists r, fcfs [Process.mk "1" 0 3 0; Process.mk "2" 5 1 0] = Ret r
               /\ Slice.pid <$> timeline r
                  = pids [Process.mk "1" 0 3 0; Process.mk "2" 5 1 0].
Proof.
  assert (H : parse_processes (fun z => z) pretty Some int_items
              = Parsed [Process.mk "1" 0 3 0; Process.mk "2" 5 1 0])
    by reflexivity.
  split; [exact H|].
  apply (parse_processes_sorted (fun z => z) pretty Some int_items _ H).
Defined.

(** ** The batch *)

